(** * Chart scripts of LATEX_Bakalarka: signal post-processing and font lookup

    A shallow embedding of the numeric post-processing and of the font
    resolver found in the chart scripts:

    - [obrazky/graf_zerocross/makechart.py]: sign-change detection, linear
      interpolation of the crossing time, choice of the candidate nearest
      to the theoretical crossing;
    - [obrazky/OLD_data/graf_peakdetect/peak_detect_chart.py]: running
      maximum (peak detector) and the two-pass font lookup;
    - [obrazky/OLD_data/graf_zerocross/makec.py]: XOR of two thresholded
      square waves, the directory-walking font lookup and the
      de-duplication of the legend labels;
    - [obrazky/graf_DDS/makechart.py]: the replay of the lookup table.

    The numeric code is written over an interface of scalar operations,
    [Scalar], whose instance is IEEE binary64 ([float]), what NumPy
    computes with. *)

From Stdlib Require Import List Bool Arith Lia Sorted.
From Stdlib Require Import ZArith QArith Qabs Qpower Lqa.
From Stdlib Require Import Floats.
From Stdlib Require Import Ascii String.
Import ListNotations.

Close Scope Q_scope.
Open Scope nat_scope.

(** ** Scalars *)

(** The operations the scripts apply to array elements. *)
Class Scalar (A : Type) : Type := {
  zero : A;
  sub : A -> A -> A;
  mul : A -> A -> A;
  div : A -> A -> A;
  absv : A -> A;
  ltb : A -> A -> bool;
  leb : A -> A -> bool;
  eqb : A -> A -> bool
}.

(** [x >= y], [x > y], [x != y] and NumPy's [isnan] are derived the way
    IEEE comparison defines them. *)
Definition geb {A} `{Scalar A} (x y : A) : bool := leb y x.
Definition gtb {A} `{Scalar A} (x y : A) : bool := ltb y x.
Definition neqb {A} `{Scalar A} (x y : A) : bool := negb (eqb x y).
Definition isnan {A} `{Scalar A} (x : A) : bool := negb (eqb x x).

#[export] Instance float_Scalar : Scalar float := {|
  zero := 0%float;
  sub := PrimFloat.sub;
  mul := PrimFloat.mul;
  div := PrimFloat.div;
  absv := PrimFloat.abs;
  ltb := PrimFloat.ltb;
  leb := PrimFloat.leb;
  eqb := PrimFloat.eqb
|}.

(** ** Errors *)

(** A Python subscript out of range raises [IndexError]; the partial
    operations return [None] there. *)
Definition bind {X Y} (m : option X) (k : X -> option Y) : option Y :=
  match m with
  | Some x => k x
  | None => None
  end.

Notation "x <- m ;; k" := (bind m (fun x => k))
  (at level 61, m at next level, right associativity).

(** ** Zero crossing ([graf_zerocross/makechart.py]) *)

Module ZeroCross.
Section Generic.
Context {A : Type} `{Scalar A}.

(** [a & b] on boolean arrays of one shape. *)
Definition band (a b : list bool) : list bool :=
  map (fun p => andb (fst p) (snd p)) (combine a b).

(** [np.where(mask)[0]]: the indices at which [mask] holds, ascending. *)
Fixpoint where_from (i : nat) (mask : list bool) : list nat :=
  match mask with
  | [] => []
  | b :: rest =>
      if b then i :: where_from (S i) rest else where_from (S i) rest
  end.

Definition np_where (mask : list bool) : list nat := where_from 0 mask.

(** [np.where((voltage[:-1] < 0) & (voltage[1:] >= 0))[0]] *)
Definition sign_change_indices (voltage : list A) : list nat :=
  np_where (band (map (fun x => ltb x zero) (removelast voltage))
                 (map (fun x => geb x zero) (tl voltage))).

(** The body of the [for idx in sign_change_indices] loop: the value
    appended to [candidates]. *)
Definition t_zero (t voltage : list A) (idx : nat) : option A :=
  v1 <- nth_error voltage idx ;;
  v2 <- nth_error voltage (idx + 1) ;;
  t1 <- nth_error t idx ;;
  t2 <- nth_error t (idx + 1) ;;
  Some (if neqb v2 v1
        then sub t1 (div (mul v1 (sub t2 t1)) (sub v2 v1))
        else t1).

(** The loop itself, appending to the list it was given. *)
Fixpoint candidates_loop (t voltage : list A) (idxs : list nat)
    (candidates : list A) : option (list A) :=
  match idxs with
  | [] => Some candidates
  | idx :: rest =>
      c <- t_zero t voltage idx ;;
      candidates_loop t voltage rest (candidates ++ [c])
  end.

Definition candidates (t voltage : list A) : option (list A) :=
  candidates_loop t voltage (sign_change_indices voltage) [].

(** [np.argmin]: the index of the first minimum; a NaN counts as the
    minimum and stops the scan.  [None] is the [ValueError] on an empty
    array. *)
Fixpoint argmin_from (mp : A) (min_ind i : nat) (l : list A) : nat :=
  match l with
  | [] => min_ind
  | x :: rest =>
      if negb (geb x mp)
      then if isnan x then i else argmin_from x i (S i) rest
      else argmin_from mp min_ind (S i) rest
  end.

Definition argmin (l : list A) : option nat :=
  match l with
  | [] => None
  | x :: rest => Some (if isnan x then 0 else argmin_from x 0 1 rest)
  end.

(** [np.abs(candidates - cross)] *)
Definition distances (cands : list A) (cross : A) : list A :=
  map (fun c => absv (sub c cross)) cands.

(** Step 5 of the loop over the signals: the crossing that is drawn. *)
Definition actual_crossing (t voltage : list A) (cross : A) : option A :=
  let idxs := sign_change_indices voltage in
  if 0 <? List.length idxs then
    cands <- candidates_loop t voltage idxs [] ;;
    idx_closest <- argmin (distances cands cross) ;;
    nth_error cands idx_closest
  else Some cross.

End Generic.
End ZeroCross.

(** ** Peak detector ([OLD_data/graf_peakdetect/peak_detect_chart.py]) *)

Module PeakDetect.
Section Generic.
Context {A : Type} `{Scalar A}.

(** [np.maximum]: the larger operand; a NaN operand is propagated.  Of
    two operands that compare equal (which differ only when they are
    the two zeros) NumPy's loop keeps the second. *)
Definition maximum (x y : A) : A :=
  if orb (gtb x y) (isnan x) then x else y.

(** [ufunc.accumulate]: [r[0] = a[0]], [r[i] = f(r[i-1], a[i])]. *)
Fixpoint accumulate_from (f : A -> A -> A) (acc : A) (l : list A) : list A :=
  match l with
  | [] => []
  | x :: rest => f acc x :: accumulate_from f (f acc x) rest
  end.

Definition accumulate (f : A -> A -> A) (l : list A) : list A :=
  match l with
  | [] => []
  | x :: rest => x :: accumulate_from f x rest
  end.

(** [peak_detector = np.maximum.accumulate(voltage)] *)
Definition peak_detector (voltage : list A) : list A :=
  accumulate maximum voltage.

End Generic.
End PeakDetect.

(** ** XOR of two square waves ([OLD_data/graf_zerocross/makec.py]) *)

Module Xor.

#[local] Set Warnings "-inexact-float".

(** The two literals of the script, as binary64 values. *)
Definition high_level : float := 3.3%float.
Definition threshold : float := 1.65%float.

(** A binary ufunc on one-dimensional arrays: equal shapes go element by
    element, a one-element array is broadcast, anything else is the
    [ValueError] of NumPy ([None]). *)
Definition broadcast2 {X Y Z : Type} (f : X -> Y -> Z)
    (a : list X) (b : list Y) : option (list Z) :=
  if List.length a =? List.length b
  then Some (map (fun p => f (fst p) (snd p)) (combine a b))
  else match a, b with
       | [x], _ => Some (map (f x) b)
       | _, [y] => Some (map (fun x => f x y) a)
       | _, _ => None
       end.

(** [np.where(cond, 3.3, 0)] *)
Definition where_level (cond : list bool) : list float :=
  map (fun c : bool => if c then high_level else 0%float) cond.

(** [square_wave = np.where(sine_wave >= 0, 3.3, 0)] *)
Definition square_wave (sine_wave : list float) : list float :=
  where_level (map (fun x => geb x 0%float) sine_wave).

(** [xor_bool = np.logical_xor(sq1 > 1.65, sq2 > 1.65)] *)
Definition xor_bool (sq1 sq2 : list float) : option (list bool) :=
  broadcast2 xorb (map (fun x => gtb x threshold) sq1)
                  (map (fun x => gtb x threshold) sq2).

(** [xor_sig = np.where(xor_bool, 3.3, 0)] *)
Definition xor_sig (sq1 sq2 : list float) : option (list float) :=
  xb <- xor_bool sq1 sq2 ;;
  Some (where_level xb).

End Xor.

(** ** Font resolver *)

Module Fonts.

#[local] Open Scope string_scope.

(** *** Strings *)

(** [str.lower()] on ASCII text. *)
Definition lower_char (c : ascii) : ascii :=
  let n := nat_of_ascii c in
  if andb (Nat.leb 65 n) (Nat.leb n 90) then ascii_of_nat (n + 32) else c.

Fixpoint lower (s : string) : string :=
  match s with
  | EmptyString => EmptyString
  | String c rest => String (lower_char c) (lower rest)
  end.

(** [needle in hay] *)
Fixpoint contains (needle hay : string) : bool :=
  match hay with
  | EmptyString => String.prefix needle hay
  | String _ rest => orb (String.prefix needle hay) (contains needle rest)
  end.

(** [s.replace(c, "")] for a one-character [c]. *)
Fixpoint remove_char (c : ascii) (s : string) : string :=
  match s with
  | EmptyString => EmptyString
  | String d rest =>
      if Ascii.eqb d c then remove_char c rest
      else String d (remove_char c rest)
  end.

(** [os.path.basename(path)], which is also [Path.name] of a path that
    does not end in a slash: what follows the last ["/"]. *)
Fixpoint basename (path : string) : string :=
  match path with
  | EmptyString => EmptyString
  | String c rest =>
      if contains "/" rest then basename rest
      else if Ascii.eqb c "/" then rest
      else path
  end.

(** [fnmatch(name, "*.[ot]tf")] *)
Fixpoint ends_with (suffix s : string) : bool :=
  match s with
  | EmptyString => String.eqb suffix s
  | String _ rest => orb (String.eqb suffix s) (ends_with suffix rest)
  end.

Definition glob_ot_tf (name : string) : bool :=
  orb (ends_with ".otf" name) (ends_with ".ttf" name).

(** *** The process and what may fail in it *)

(** An instance of Python's [Exception]; [str(e)] is its message. *)
Inductive exception : Type := Exception (message : string).

Definition str (e : exception) : string :=
  match e with Exception m => m end.

Inductive outcome (X : Type) : Type :=
  | Returned (x : X)
  | Raised (e : exception).
Arguments Returned {X} x.
Arguments Raised {X} e.

(** What the font section reads and writes: [plt.rcParams['font.family']]
    and the lines printed so far. *)
Record process : Type := {
  font_family : string;
  stdout : list string
}.

Definition script (X : Type) : Type := process -> outcome X * process.

Definition ret {X} (x : X) : script X := fun st => (Returned x, st).

Definition seq {X Y} (m : script X) (k : X -> script Y) : script Y :=
  fun st =>
    match m st with
    | (Returned x, st') => k x st'
    | (Raised e, st') => (Raised e, st')
    end.

Notation "x <~ m ;; k" := (seq m (fun x => k))
  (at level 61, m at next level, right associativity).
Notation "m ;; k" := (seq m (fun _ => k))
  (at level 61, right associativity).

(** [try: body  except Exception as e: handler(e)] *)
Definition try_except {X} (body : script X) (handler : exception -> script X)
    : script X :=
  fun st =>
    match body st with
    | (Returned x, st') => (Returned x, st')
    | (Raised e, st') => handler e st'
    end.

Definition call {X} (o : outcome X) : script X := fun st => (o, st).

Definition print (line : string) : script unit :=
  fun st => (Returned tt,
             {| font_family := font_family st;
                stdout := (stdout st ++ [line])%list |}).

Definition set_font_family (family : string) : script unit :=
  fun st => (Returned tt,
             {| font_family := family; stdout := stdout st |}).

(** Matplotlib's font manager as the scripts use it.  [get_name p] is
    [FontProperties(fname=p).get_name()]. *)
Record font_manager : Type := {
  ttflist : list string;
  findSystemFonts : outcome (list string);
  addfont : string -> outcome unit;
  get_name : string -> outcome string
}.

(** *** [makec.py] (the same text opens both [makechart.py] scripts) *)

Module Makec.

Definition target_font_str : string := "IoskeleyMono_Regular".

(** One entry of [search_dirs].  [dir_exists] is the call
    [directory.exists()]: it returns a boolean or raises ([Path.exists]
    swallows a missing path, not a [PermissionError]).  [entries] is what
    the walk below the directory comes across, in the order of the
    traversal, and [walk_error] is the error that ends the walk after
    them, if there is one. *)
Record directory : Type := {
  dir_exists : outcome bool;
  entries : list string;
  walk_error : option exception
}.

(** What the generator [directory.rglob("*.[ot]tf")] yields before it is
    exhausted or raises [walk_error]. *)
Definition rglob (d : directory) : list string :=
  filter (fun p => glob_ot_tf (basename p)) (entries d).

Definition name_matches (target file_path : string) : bool :=
  contains (lower target) (lower (basename file_path)).

Definition regular (file_path : string) : bool :=
  andb (negb (contains "bold" (lower (basename file_path))))
       (negb (contains "italic" (lower (basename file_path)))).

(** The inner [for file_path in directory.rglob(...)] loop over a
    generator that yields [files] and then stops, or raises [error]: the
    loop is left at the first file that is taken, and the error is met
    only when no file was taken before. *)
Fixpoint scan (target : string) (files : list string)
    (error : option exception) : outcome (option string) :=
  match files with
  | [] =>
      match error with
      | Some e => Raised e
      | None => Returned None
      end
  | file_path :: rest =>
      if name_matches target file_path then
        if regular file_path then Returned (Some file_path)
        else scan target rest error
      else scan target rest error
  end.

(** The outer [for directory in search_dirs] loop; its value is
    [found_file].  The loop is not inside a [try]: what [exists()] or the
    walk raises leaves it. *)
Fixpoint found_file (target : string) (search_dirs : list directory)
    : outcome (option string) :=
  match search_dirs with
  | [] => Returned None
  | d :: rest =>
      match dir_exists d with
      | Raised e => Raised e
      | Returned false => found_file target rest
      | Returned true =>
          match scan target (rglob d) (walk_error d) with
          | Raised e => Raised e
          | Returned (Some f) => Returned (Some f)
          | Returned None => found_file target rest
          end
      end
  end.

(** The search as the specification words it: the files of the existing
    directories in directory-priority order, and among them the first one
    with a matching name that is neither bold nor italic. *)
Definition exists_true (d : directory) : bool :=
  match dir_exists d with
  | Returned true => true
  | _ => false
  end.

Definition visited (search_dirs : list directory) : list string :=
  List.concat (map rglob (filter exists_true search_dirs)).

Definition wanted (target file_path : string) : bool :=
  andb (name_matches target file_path) (regular file_path).

Definition first_wanted (target : string) (search_dirs : list directory)
    : option string :=
  find (wanted target) (visited search_dirs).

(** A directory the walk gets through: [exists()] returns, and the walk
    below an existing directory ends without an error. *)
Definition readable (d : directory) : bool :=
  match dir_exists d with
  | Returned true =>
      match walk_error d with
      | None => true
      | Some _ => false
      end
  | Returned false => true
  | Raised _ => false
  end.

(** The body of the [try]. *)
Definition load (fm : font_manager) (f : string) : script bool :=
  call (addfont fm f) ;;
  internal_name <~ call (get_name fm f) ;;
  set_font_family internal_name ;;
  print ("SUCCESS: Loaded '" ++ internal_name ++ "' from " ++ f) ;;
  ret true.

(** Step 3 and the fallback; the value is [font_loaded]. *)
Definition font_loaded (fm : font_manager) (found : option string)
    : script bool :=
  match found with
  | Some f =>
      try_except (load fm f)
        (fun e => print ("Error loading font file: " ++ str e) ;; ret false)
  | None => ret false
  end.

(** The line that opens the section and the warning of the fallback. *)
Definition searching : string :=
  "Searching for font files matching '" ++ target_font_str ++ "'...".

Definition fallback_warning : string :=
  "WARNING: Could not find a file matching '" ++ target_font_str
  ++ "'. Using Monospace fallback.".

Definition font_section (fm : font_manager) (search_dirs : list directory)
    : script unit :=
  print searching ;;
  found <~ call (found_file target_font_str search_dirs) ;;
  loaded <~ font_loaded fm found ;;
  if negb loaded then
    print fallback_warning ;;
    set_font_family "monospace"
  else ret tt.

End Makec.

(** *** [peak_detect_chart.py] *)

Module PeakChart.

(** Truth value of [found_path]: [None] and the empty string are false. *)
Definition truthy (p : option string) : bool :=
  match p with
  | Some s => negb (String.eqb s "")
  | None => false
  end.

Definition clean_name (font_name : string) : string :=
  remove_char " " (lower font_name).

(** The loop that collects [candidates]. *)
Definition collect (target_clean : string) (system_fonts : list string)
    : list string :=
  filter (fun path =>
            contains target_clean
              (remove_char "_" (remove_char "-" (lower (basename path)))))
         system_fonts.

Definition clean (path : string) : bool :=
  let fname := lower (basename path) in
  andb (andb (negb (contains "italic" fname)) (negb (contains "bold" fname)))
       (negb (contains "oblique" fname)).

(** First pass: the first candidate with a clean file name. *)
Fixpoint first_pass (candidates : list string) : option string :=
  match candidates with
  | [] => None
  | path :: rest => if clean path then Some path else first_pass rest
  end.

(** Both passes; the value is [found_path]. *)
Definition found_path (candidates : list string) : option string :=
  match candidates with
  | [] => None
  | first :: _ =>
      let found := first_pass candidates in
      if negb (truthy found) then Some first else found
  end.

(** The body of the [try]. *)
Definition resolve (fm : font_manager) (font_name : string) : script unit :=
  if existsb (String.eqb (lower font_name)) (map lower (ttflist fm)) then
    set_font_family font_name ;;
    print ("Using cached font: " ++ font_name)
  else
    print ("Font '" ++ font_name ++ "' not in cache, searching system files...") ;;
    system_fonts <~ call (findSystemFonts fm) ;;
    let found := found_path (collect (clean_name font_name) system_fonts) in
    if truthy found then
      match found with
      | Some p =>
          call (addfont fm p) ;;
          internal_name <~ call (get_name fm p) ;;
          set_font_family internal_name ;;
          print ("Found and loaded font from: " ++ p)
      | None => ret tt
      end
    else
      print ("Warning: Font '" ++ font_name
             ++ "' could not be found. Using default.") ;;
      set_font_family "sans-serif".

(** The font handling section of [generate_signal_chart]. *)
Definition font_section (fm : font_manager) (font_name : string)
    : script unit :=
  try_except (resolve fm font_name)
    (fun e =>
       print ("Font warning: " ++ str e ++ ". Falling back to default.") ;;
       set_font_family "sans-serif").

End PeakChart.

End Fonts.

(** ** Legend of [makec.py] *)

Module Legend.
Section Dict.
Context {V : Type}.

(** A Python [dict] with string keys: the items in insertion order. *)
Definition dict_items : Type := list (string * V).

(** [d[k] = v]: a key already present keeps its place and takes the new
    value, a new key goes to the end. *)
Fixpoint setitem (d : dict_items) (k : string) (v : V) : dict_items :=
  match d with
  | [] => [(k, v)]
  | (k', v') :: rest =>
      if String.eqb k' k then (k', v) :: rest
      else (k', v') :: setitem rest k v
  end.

(** [dict(pairs)] *)
Definition dict (pairs : list (string * V)) : dict_items :=
  fold_left (fun d p => setitem d (fst p) (snd p)) pairs [].

(** [d.get(k)] *)
Fixpoint get (d : dict_items) (k : string) : option V :=
  match d with
  | [] => None
  | (k', v') :: rest => if String.eqb k' k then Some v' else get rest k
  end.

Definition keys (d : dict_items) : list string := map fst d.
Definition values (d : dict_items) : list V := map snd d.

(** [by_label = dict(zip(labels, handles))] *)
Definition by_label (labels : list string) (handles : list V) : dict_items :=
  dict (combine labels handles).

End Dict.
End Legend.

(** ** Replay of the lookup table ([graf_DDS/makechart.py]) *)

Module Replay.
Section Table.
Context {X : Type}.

(** [np.tile(a, reps)] on a one-dimensional array. *)
Fixpoint tile (a : list X) (reps : nat) : list X :=
  match reps with
  | O => []
  | S reps' => a ++ tile a reps'
  end.

(** [a[-1]]; [None] is the [IndexError] on an empty array. *)
Definition last_item (a : list X) : option X :=
  match a with
  | [] => None
  | _ => nth_error a (List.length a - 1)
  end.

(** [plot_voltages]: the table without its last entry, repeated
    [n_periods_to_show] times, then the last entry once. *)
Definition plot_voltages (voltage_values : list X) (n_periods_to_show : nat)
    : option (list X) :=
  let voltage_one_period := removelast voltage_values in
  let tiled := tile voltage_one_period n_periods_to_show in
  closing <- last_item voltage_values ;;
  Some (tiled ++ [closing]).

(** [plot_addresses = np.arange(len(plot_voltages))] *)
Definition plot_addresses (voltages : list X) : list nat :=
  seq 0 (List.length voltages).

End Table.
End Replay.

(** ** Order of binary64 values *)

Module Binary64.

(** A value that is not a NaN, placed in the lexicographic order of
    triples of integers: the sign class, then the exponent, then the
    mantissa, the last two negated below zero. *)
Definition key (f : spec_float) : Z * Z * Z :=
  match f with
  | S754_nan => (0, 0, 0)%Z
  | S754_zero _ => (0, 0, 0)%Z
  | S754_infinity true => (-2, 0, 0)%Z
  | S754_infinity false => (2, 0, 0)%Z
  | S754_finite true m e => (-1, - e, Z.neg m)%Z
  | S754_finite false m e => (1, e, Z.pos m)%Z
  end.

Definition lex3 (a b : Z * Z * Z) : comparison :=
  match a, b with
  | (a1, a2, a3), (b1, b2, b3) =>
      match Z.compare a1 b1 with
      | Eq => match Z.compare a2 b2 with
              | Eq => Z.compare a3 b3
              | c => c
              end
      | c => c
      end
  end.

(** Case analysis on every comparison of integers in sight. *)
Ltac lex3_cases :=
  unfold lex3 in *;
  repeat match goal with
         | |- context [Z.compare ?x ?y] => destruct (Z.compare_spec x y)
         | H : context [Z.compare ?x ?y] |- _ =>
             destruct (Z.compare_spec x y)
         end;
  try discriminate; try congruence; try lia.

(** The values NumPy's [isnan] rejects. *)
Definition not_nan (x : float) : Prop := isnan x = false.

(** The rational number a finite binary64 value stands for; an infinity
    and a NaN stand for none. *)
Definition exact_value (f : spec_float) : option Q :=
  match f with
  | S754_zero _ => Some 0%Q
  | S754_finite s m e =>
      Some (inject_Z (if s then Z.neg m else Z.pos m) * Qpower 2 e)%Q
  | S754_infinity _ => None
  | S754_nan => None
  end.

Definition exact (x : float) : option Q := exact_value (Prim2SF x).

(** The linear interpolant through [(t1, v1)] and [(t2, v2)], as the
    specification has it: the line in exact arithmetic.  A root of it is
    a time at which it takes the value 0. *)
Definition interpolant (t1 v1 t2 v2 x : Q) : Q :=
  (v1 + (x - t1) * (v2 - v1) / (t2 - t1))%Q.

End Binary64.

(** * Properties *)

(** ** Lists and errors *)

Lemma bind_Some {X Y} (m : option X) (k : X -> option Y) (y : Y) :
  bind m k = Some y <-> exists x, m = Some x /\ k x = Some y.
Proof.
  destruct m as [x|]; simpl; split.
  - intros Hk. exists x. auto.
  - intros [x' [Hx Hk]]. inversion Hx. subst. exact Hk.
  - discriminate.
  - intros [x' [Hx _]]. discriminate.
Qed.

Lemma nth_error_tl {X} (l : list X) (i : nat) :
  nth_error (tl l) i = nth_error l (S i).
Proof. destruct l; simpl; [destruct i|]; reflexivity. Qed.

Lemma nth_error_removelast {X} (l : list X) (i : nat) :
  nth_error (removelast l) i =
  if S i <? List.length l then nth_error l i else None.
Proof.
  revert i. induction l as [|x l IH]; intros i.
  - destruct i; reflexivity.
  - destruct l as [|y l].
    + destruct i; reflexivity.
    + change (removelast (x :: y :: l)) with (x :: removelast (y :: l)).
      destruct i as [|i].
      * reflexivity.
      * simpl nth_error at 1. rewrite IH. reflexivity.
Qed.

(** ** Zero crossing *)

Module ZeroCrossFacts.
Import ZeroCross.

Section Generic.
Context {A : Type} `{Scalar A}.

Lemma nth_error_band (a b : list bool) (i : nat) :
  nth_error (band a b) i =
  match nth_error a i, nth_error b i with
  | Some x, Some y => Some (andb x y)
  | _, _ => None
  end.
Proof.
  unfold band. revert b i.
  induction a as [|x a IH]; intros b i.
  - destruct i; reflexivity.
  - destruct b as [|y b].
    + destruct i; simpl; [reflexivity|]. destruct (nth_error a i); reflexivity.
    + destruct i; simpl; [reflexivity|]. apply IH.
Qed.

Lemma In_where_from (mask : list bool) (k i : nat) :
  In i (where_from k mask) <-> k <= i /\ nth_error mask (i - k) = Some true.
Proof.
  revert k. induction mask as [|b mask IH]; intros k; simpl.
  - split; [contradiction|]. intros [_ Hn]. destruct (i - k); discriminate.
  - assert (Hrest : In i (where_from (S k) mask) <->
                    k < i /\ nth_error (b :: mask) (i - k) = Some true).
    { rewrite IH. split.
      - intros [Hle Hn]. split; [lia|].
        replace (i - k) with (S (i - S k)) by lia. exact Hn.
      - intros [Hlt Hn]. split; [lia|].
        replace (i - k) with (S (i - S k)) in Hn by lia. exact Hn. }
    destruct b; simpl.
    + rewrite Hrest. split.
      * intros [Heq | [Hlt Hn]].
        -- subst. split; [lia|]. rewrite Nat.sub_diag. reflexivity.
        -- split; [lia | exact Hn].
      * intros [Hle Hn].
        destruct (Nat.eq_dec k i) as [Heq | Hne]; [left; exact Heq|].
        right. split; [lia | exact Hn].
    + rewrite Hrest. split.
      * intros [Hlt Hn]. split; [lia | exact Hn].
      * intros [Hle Hn]. split; [|exact Hn].
        destruct (Nat.eq_dec k i) as [Heq | Hne]; [|lia].
        subst. rewrite Nat.sub_diag in Hn. discriminate.
Qed.

(** The indices of [sign_change_indices] are those of the pairs that go
    from below zero to zero or above. *)
Lemma In_sign_change_indices (voltage : list A) (i : nat) :
  In i (sign_change_indices voltage) <->
  exists v1 v2,
    nth_error voltage i = Some v1 /\
    nth_error voltage (i + 1) = Some v2 /\
    ltb v1 zero = true /\ geb v2 zero = true.
Proof.
  unfold sign_change_indices, np_where.
  rewrite In_where_from, Nat.sub_0_r, nth_error_band.
  rewrite !nth_error_map, nth_error_tl, nth_error_removelast.
  replace (i + 1) with (S i) by lia.
  split.
  - intros [_ Hn].
    destruct (S i <? List.length voltage); [|discriminate].
    destruct (nth_error voltage i) as [v1|]; [|discriminate].
    destruct (nth_error voltage (S i)) as [v2|]; [|discriminate].
    simpl in Hn. inversion Hn as [Hand].
    apply andb_true_iff in Hand. destruct Hand as [H1 H2].
    exists v1, v2. rewrite H1, H2. auto.
  - intros [v1 [v2 [Hv1 [Hv2 [H1 H2]]]]]. split; [lia|].
    assert (Hlen : S i < List.length voltage).
    { apply nth_error_Some. rewrite Hv2. discriminate. }
    apply Nat.ltb_lt in Hlen. rewrite Hlen, Hv1, Hv2. simpl.
    rewrite H1, H2. reflexivity.
Qed.

Lemma sign_change_indices_nil (voltage : list A) :
  (forall i v1 v2,
      nth_error voltage i = Some v1 ->
      nth_error voltage (i + 1) = Some v2 ->
      andb (ltb v1 zero) (geb v2 zero) = false) ->
  sign_change_indices voltage = [].
Proof.
  intros Hnone.
  destruct (sign_change_indices voltage) as [|i rest] eqn:E; [reflexivity|].
  assert (Hin : In i (sign_change_indices voltage)) by (rewrite E; left; auto).
  apply In_sign_change_indices in Hin.
  destruct Hin as [v1 [v2 [Hv1 [Hv2 [H1 H2]]]]].
  specialize (Hnone i v1 v2 Hv1 Hv2). rewrite H1, H2 in Hnone. discriminate.
Qed.

(** The loop computes [t_zero] for each index, in order, after what the
    list already held. *)
Lemma candidates_loop_Forall2 (t voltage : list A) (idxs : list nat)
    (acc r : list A) :
  candidates_loop t voltage idxs acc = Some r <->
  exists cs, r = acc ++ cs /\
             Forall2 (fun idx c => t_zero t voltage idx = Some c) idxs cs.
Proof.
  revert acc r. induction idxs as [|idx rest IH]; intros acc r; simpl.
  - split.
    + intros Hr. inversion Hr. exists []. rewrite app_nil_r. auto.
    + intros [cs [Hr Hcs]]. inversion Hcs. subst. rewrite app_nil_r. auto.
  - rewrite bind_Some. split.
    + intros [c [Hc Hloop]]. apply IH in Hloop.
      destruct Hloop as [cs [Hr Hcs]]. exists (c :: cs).
      rewrite <- app_assoc in Hr. simpl in Hr. auto.
    + intros [cs [Hr Hcs]]. inversion Hcs as [|i c rest' cs' Hc Hrest]. subst.
      exists c. split; [exact Hc|]. apply IH. exists cs'.
      rewrite <- app_assoc. auto.
Qed.

Lemma candidates_loop_total (t voltage : list A) (idxs : list nat)
    (acc : list A) :
  (forall idx, In idx idxs -> exists c, t_zero t voltage idx = Some c) ->
  exists cs, candidates_loop t voltage idxs acc = Some (acc ++ cs) /\
             Forall2 (fun idx c => t_zero t voltage idx = Some c) idxs cs.
Proof.
  revert acc. induction idxs as [|idx rest IH]; intros acc Hall; simpl.
  - exists []. rewrite app_nil_r. auto.
  - destruct (Hall idx (or_introl eq_refl)) as [c Hc]. rewrite Hc. simpl.
    destruct (IH (acc ++ [c])) as [cs [Hloop Hcs]].
    { intros i Hi. apply Hall. right. exact Hi. }
    exists (c :: cs). rewrite Hloop, <- app_assoc. auto.
Qed.

(** The loop does not raise when [t] is as long as [voltage]. *)
Lemma t_zero_total (t voltage : list A) (idx : nat) :
  List.length t = List.length voltage ->
  In idx (sign_change_indices voltage) ->
  exists c, t_zero t voltage idx = Some c.
Proof.
  intros Hlen Hin. apply In_sign_change_indices in Hin.
  destruct Hin as [v1 [v2 [Hv1 [Hv2 _]]]].
  assert (Hi : idx + 1 < List.length t).
  { rewrite Hlen. apply nth_error_Some. rewrite Hv2. discriminate. }
  destruct (nth_error t idx) as [t1|] eqn:Ht1.
  2:{ apply nth_error_None in Ht1. lia. }
  destruct (nth_error t (idx + 1)) as [t2|] eqn:Ht2.
  2:{ apply nth_error_None in Ht2. lia. }
  unfold t_zero. rewrite Hv1, Hv2, Ht1, Ht2. simpl. eauto.
Qed.

Lemma candidates_total (t voltage : list A) :
  List.length t = List.length voltage ->
  exists cands,
    candidates t voltage = Some cands /\
    Forall2 (fun idx c => t_zero t voltage idx = Some c)
            (sign_change_indices voltage) cands.
Proof.
  intros Hlen. unfold candidates.
  destruct (candidates_loop_total t voltage (sign_change_indices voltage) [])
    as [cs [Hloop Hcs]].
  - intros idx. apply t_zero_total. exact Hlen.
  - exists cs. auto.
Qed.

End Generic.

Lemma Forall2_nth_error_l {X Y} (R : X -> Y -> Prop) (l : list X)
    (l' : list Y) (k : nat) (x : X) :
  Forall2 R l l' -> nth_error l k = Some x ->
  exists y, nth_error l' k = Some y /\ R x y.
Proof.
  intros HF. revert k. induction HF as [|a b l l' Hab HF IH]; intros k Hk.
  - destruct k; discriminate.
  - destruct k as [|k]; simpl in *.
    + inversion Hk. subst. eauto.
    + apply IH. exact Hk.
Qed.


(** *** Exact arithmetic *)

#[local] Open Scope Q_scope.


(** The interpolated time is the root of the line through the two
    samples. *)
Lemma interpolation_root (t1 t2 v1 v2 : Q) :
  ~ v2 == v1 -> ~ t2 == t1 ->
  Binary64.interpolant t1 v1 t2 v2 (t1 - v1 * (t2 - t1) / (v2 - v1)) == 0.
Proof.
  intros Hv Ht. unfold Binary64.interpolant. field. split.
  - intros H0. apply Ht. lra.
  - intros H0. apply Hv. lra.
Qed.

(** *** The claims on the zero crossing *)

(** C8: the detector flags index [i] if and only if [voltage[i] < 0] and
    [voltage[i+1] >= 0]; no other pair of neighbours is flagged.  This
    holds for every scalar type, binary64 included. *)
Theorem sign_change_flagged_iff {A : Type} `{Scalar A}
    (voltage : list A) (i : nat) :
  In i (sign_change_indices voltage) <->
  exists v1 v2,
    nth_error voltage i = Some v1 /\
    nth_error voltage (i + 1) = Some v2 /\
    ltb v1 zero = true /\ geb v2 zero = true.
Proof. apply In_sign_change_indices. Qed.

(** C3: when no pair of neighbours goes from below zero to zero or
    above, the refinement returns the theoretical crossing [cross]
    unchanged and raises nothing, whatever [t] is. *)
Theorem no_sign_change_fallback {A : Type} `{Scalar A}
    (t voltage : list A) (cross : A) :
  (forall i v1 v2,
      nth_error voltage i = Some v1 ->
      nth_error voltage (i + 1) = Some v2 ->
      andb (ltb v1 zero) (geb v2 zero) = false) ->
  actual_crossing t voltage cross = Some cross.
Proof.
  intros Hnone. unfold actual_crossing.
  rewrite (sign_change_indices_nil voltage Hnone). reflexivity.
Qed.

Lemma no_sign_change_fallback_witness :
  actual_crossing [2.5; 2.75; 3]%float [1; -1; -2]%float 5%float
  = Some 5%float.
Proof.
  apply no_sign_change_fallback.
  intros i v1 v2 H1 H2.
  destruct i as [|[|[|i]]]; simpl in H1, H2.
  - inversion H1. inversion H2. reflexivity.
  - inversion H1. inversion H2. reflexivity.
  - discriminate.
  - destruct i; discriminate.
Defined.


End ZeroCrossFacts.

(** ** XOR of two square waves *)

Module XorFacts.
Import Xor.

Lemma nth_error_combine {X Y} (a : list X) (b : list Y) (i : nat) :
  nth_error (combine a b) i =
  match nth_error a i, nth_error b i with
  | Some x, Some y => Some (x, y)
  | _, _ => None
  end.
Proof.
  revert b i. induction a as [|x a IH]; intros b i.
  - destruct i; reflexivity.
  - destruct b as [|y b].
    + destruct i; simpl; [reflexivity|]. destruct (nth_error a i); reflexivity.
    + destruct i; simpl; [reflexivity|]. apply IH.
Qed.

(** On arrays of one length the ufunc goes element by element. *)
Lemma broadcast2_same_length {X Y Z} (f : X -> Y -> Z)
    (a : list X) (b : list Y) :
  List.length a = List.length b ->
  broadcast2 f a b = Some (map (fun p => f (fst p) (snd p)) (combine a b)).
Proof.
  intros Hlen. unfold broadcast2. rewrite Hlen, Nat.eqb_refl. reflexivity.
Qed.

(** The two levels of a square wave sit on either side of the threshold. *)
Lemma low_below_threshold : gtb 0%float threshold = false.
Proof. vm_compute. reflexivity. Qed.

Lemma high_above_threshold : gtb high_level threshold = true.
Proof. vm_compute. reflexivity. Qed.

Lemma low_is_not_high : 0%float <> high_level.
Proof.
  intros Heq. apply (f_equal (fun x => gtb x threshold)) in Heq.
  rewrite low_below_threshold, high_above_threshold in Heq. discriminate.
Qed.

Lemma above_threshold_iff_high (x : float) :
  x = 0%float \/ x = high_level ->
  (gtb x threshold = true <-> x = high_level).
Proof.
  intros [Hx | Hx]; subst x.
  - rewrite low_below_threshold. split; [discriminate|].
    intros Heq. destruct (low_is_not_high Heq).
  - rewrite high_above_threshold. split; reflexivity.
Qed.

(** C5: for two square waves of one length with values in [{0, 3.3}],
    [xor_sig] is computed, has their length, and holds at each index
    3.3 when exactly one of the two inputs is above 1.65, that is when
    exactly one of them is at the high level, and 0 otherwise. *)
Theorem xor_sig_elementwise (sq1 sq2 : list float) :
  List.length sq1 = List.length sq2 ->
  Forall (fun x => x = 0%float \/ x = high_level) sq1 ->
  Forall (fun x => x = 0%float \/ x = high_level) sq2 ->
  exists xs,
    xor_sig sq1 sq2 = Some xs /\
    List.length xs = List.length sq1 /\
    (forall i a b,
        nth_error sq1 i = Some a ->
        nth_error sq2 i = Some b ->
        nth_error xs i
        = Some (if xorb (gtb a threshold) (gtb b threshold)
                then high_level else 0%float) /\
        (gtb a threshold = true <-> a = high_level) /\
        (gtb b threshold = true <-> b = high_level)).
Proof.
  intros Hlen H1 H2. unfold xor_sig, xor_bool.
  rewrite broadcast2_same_length by (rewrite !length_map; exact Hlen).
  simpl bind. eexists. split; [reflexivity|]. split.
  - unfold where_level.
    rewrite !length_map, length_combine, !length_map. lia.
  - intros i a b Ha Hb. split.
    + unfold where_level.
      rewrite !nth_error_map, nth_error_combine, !nth_error_map, Ha, Hb.
      reflexivity.
    + rewrite Forall_forall in H1, H2. split.
      * apply above_threshold_iff_high. apply H1.
        eapply nth_error_In. exact Ha.
      * apply above_threshold_iff_high. apply H2.
        eapply nth_error_In. exact Hb.
Qed.

Lemma xor_sig_elementwise_witness :
  exists xs,
    xor_sig [0%float; high_level; high_level; 0%float]
            [0%float; 0%float; high_level; high_level] = Some xs /\
    List.length xs
    = List.length [0%float; high_level; high_level; 0%float] /\
    (forall i a b,
        nth_error [0%float; high_level; high_level; 0%float] i = Some a ->
        nth_error [0%float; 0%float; high_level; high_level] i = Some b ->
        nth_error xs i
        = Some (if xorb (gtb a threshold) (gtb b threshold)
                then high_level else 0%float) /\
        (gtb a threshold = true <-> a = high_level) /\
        (gtb b threshold = true <-> b = high_level)).
Proof.
  apply (xor_sig_elementwise
           [0%float; high_level; high_level; 0%float]
           [0%float; 0%float; high_level; high_level]).
  - reflexivity.
  - repeat (apply Forall_cons;
            [first [left; reflexivity | right; reflexivity]|]).
    apply Forall_nil.
  - repeat (apply Forall_cons;
            [first [left; reflexivity | right; reflexivity]|]).
    apply Forall_nil.
Defined.

End XorFacts.

(** ** Font resolver *)

Module FontsFacts.
Import Fonts.

#[local] Open Scope string_scope.

Lemma find_app {X} (f : X -> bool) (l1 l2 : list X) :
  find f (l1 ++ l2)%list =
  match find f l1 with
  | Some x => Some x
  | None => find f l2
  end.
Proof.
  induction l1 as [|x l1 IH]; simpl; [reflexivity|].
  destruct (f x); [reflexivity | exact IH].
Qed.

Lemma find_none_all {X} (f : X -> bool) (l : list X) :
  (forall x, In x l -> f x = false) -> find f l = None.
Proof.
  induction l as [|x l IH]; intros Hall; simpl; [reflexivity|].
  rewrite (Hall x (or_introl eq_refl)). apply IH.
  intros y Hy. apply Hall. right. exact Hy.
Qed.

Lemma find_some_exists {X} (f : X -> bool) (l : list X) (x : X) :
  In x l -> f x = true -> exists y, find f l = Some y.
Proof.
  induction l as [|z l IH]; intros Hin Hfx; [contradiction|]. simpl.
  destruct (f z) eqn:Ez; [eauto|].
  destruct Hin as [Heq | Hin]; [congruence|]. apply IH; assumption.
Qed.

(** *** [makec.py] *)

Section MakecSearch.
Import Makec.

Lemma scan_returned (target : string) (files : list string)
    (error : option exception) (r : option string) :
  scan target files error = Returned r -> r = find (wanted target) files.
Proof.
  induction files as [|p files IH]; simpl.
  - destruct error; [discriminate|]. intros Hr. injection Hr as Hr.
    symmetry. exact Hr.
  - unfold wanted at 1.
    destruct (name_matches target p); simpl; [|exact IH].
    destruct (regular p); [|exact IH].
    intros Hr. injection Hr as Hr. symmetry. exact Hr.
Qed.

Lemma scan_quiet (target : string) (files : list string) :
  scan target files None = Returned (find (wanted target) files).
Proof.
  induction files as [|p files IH]; simpl; [reflexivity|].
  unfold wanted at 1.
  destruct (name_matches target p); simpl; [|exact IH].
  destruct (regular p); [reflexivity | exact IH].
Qed.

(** When [found_file] is reached, it is the first wanted file in
    directory-priority order. *)
Lemma found_file_returned (target : string) (search_dirs : list directory)
    (r : option string) :
  found_file target search_dirs = Returned r ->
  r = first_wanted target search_dirs.
Proof.
  unfold first_wanted, visited.
  induction search_dirs as [|d rest IH]; simpl.
  - intros Hr. injection Hr as Hr. symmetry. exact Hr.
  - unfold exists_true at 1.
    destruct (dir_exists d) as [[|]|e]; simpl; [|exact IH|discriminate].
    rewrite find_app.
    destruct (scan target (rglob d) (walk_error d)) as [[f|]|e] eqn:Escan;
      [| |discriminate]; apply scan_returned in Escan; rewrite <- Escan.
    + intros Hr. injection Hr as Hr. symmetry. exact Hr.
    + exact IH.
Qed.

(** It is reached when every directory is readable. *)
Lemma found_file_readable (target : string) (search_dirs : list directory) :
  forallb readable search_dirs = true ->
  found_file target search_dirs
  = Returned (first_wanted target search_dirs).
Proof.
  unfold first_wanted, visited.
  induction search_dirs as [|d rest IH]; simpl; [reflexivity|].
  intros Hall. apply andb_true_iff in Hall. destruct Hall as [Hd Hrest].
  unfold readable in Hd. unfold exists_true at 1.
  destruct (dir_exists d) as [[|]|e]; simpl; [|exact (IH Hrest)|discriminate].
  destruct (walk_error d); [discriminate|].
  rewrite find_app, scan_quiet.
  destruct (find (wanted target) (rglob d)); [reflexivity | exact (IH Hrest)].
Qed.

Lemma In_visited (search_dirs : list directory) (p : string) :
  In p (visited search_dirs) <->
  exists d, In d search_dirs /\ dir_exists d = Returned true /\ In p (rglob d).
Proof.
  assert (Hex : forall d, exists_true d = true <-> dir_exists d = Returned true).
  { intros d. unfold exists_true.
    destruct (dir_exists d) as [[|]|e]; split; congruence. }
  unfold visited. rewrite in_concat. split.
  - intros [files [Hfiles Hp]]. apply in_map_iff in Hfiles.
    destruct Hfiles as [d [Hd Hin]]. apply filter_In in Hin.
    destruct Hin as [Hin Ht]. apply Hex in Ht. exists d. subst files. auto.
  - intros [d [Hin [Ht Hp]]]. exists (rglob d). split; [|exact Hp].
    apply in_map. apply filter_In. split; [exact Hin|]. apply Hex. exact Ht.
Qed.

(** With no wanted file the section ends on the fallback family. *)
Lemma font_section_not_found (fm : font_manager)
    (search_dirs : list directory) (st : process) :
  found_file target_font_str search_dirs = Returned None ->
  exists st',
    font_section fm search_dirs st = (Returned tt, st') /\
    font_family st' = "monospace".
Proof.
  intros Hnone. unfold font_section, seq, print, call, font_loaded.
  rewrite Hnone. simpl. eexists. split; reflexivity.
Qed.

(** What the walk raises leaves the section, after the search line. *)
Lemma font_section_walk_raises (fm : font_manager)
    (search_dirs : list directory) (st : process) (e : exception) :
  found_file target_font_str search_dirs = Raised e ->
  font_section fm search_dirs st
  = (Raised e,
     {| font_family := font_family st;
        stdout := (stdout st ++ [searching])%list |}).
Proof.
  intros Hraised. unfold font_section, seq, print, call.
  rewrite Hraised. reflexivity.
Qed.


End MakecSearch.

(** *** [peak_detect_chart.py] *)

Section PeakChartSearch.
Import PeakChart.

Lemma first_pass_find (candidates : list string) :
  first_pass candidates = find clean candidates.
Proof.
  induction candidates as [|p rest IH]; simpl; [reflexivity|].
  destruct (clean p); [reflexivity | exact IH].
Qed.

Lemma found_path_two_passes (candidates : list string) :
  found_path candidates =
  if truthy (find clean candidates) then find clean candidates
  else hd_error candidates.
Proof.
  unfold found_path. destruct candidates as [|p rest]; [reflexivity|].
  rewrite first_pass_find.
  destruct (truthy (find clean (p :: rest))); reflexivity.
Qed.

Lemma truthy_find (candidates : list string) (q : string) :
  (forall p, In p candidates -> p <> "") ->
  find clean candidates = Some q ->
  truthy (find clean candidates) = true.
Proof.
  intros Hne Hq. rewrite Hq. simpl.
  apply find_some in Hq. destruct Hq as [Hin _].
  destruct (String.eqb q "") eqn:E; [|reflexivity].
  apply String.eqb_eq in E. destruct (Hne q Hin E).
Qed.

End PeakChartSearch.

Lemma filter_nil_all {X} (f : X -> bool) (l : list X) :
  (forall x, In x l -> f x = false) -> filter f l = [].
Proof.
  induction l as [|x l IH]; intros Hall; simpl; [reflexivity|].
  rewrite (Hall x (or_introl eq_refl)). apply IH.
  intros y Hy. apply Hall. right. exact Hy.
Qed.

(** With no candidate the section ends on the fallback family. *)
Lemma peak_font_section_not_found (fm : font_manager) (font_name : string)
    (fonts : list string) (st : process) :
  existsb (String.eqb (lower font_name)) (map lower (ttflist fm)) = false ->
  findSystemFonts fm = Returned fonts ->
  PeakChart.collect (PeakChart.clean_name font_name) fonts = [] ->
  exists st',
    PeakChart.font_section fm font_name st = (Returned tt, st') /\
    font_family st' = "sans-serif".
Proof.
  intros Hcache Hfonts Hnone.
  unfold PeakChart.font_section, try_except, PeakChart.resolve.
  rewrite Hcache. unfold seq, print, call. rewrite Hfonts, Hnone. simpl.
  eexists. split; reflexivity.
Qed.


(** *** The claims on the font resolver *)

(** C6, as the code has it.  In [makec.py], whenever the directory walk
    returns, [found_file] is the first file, in directory-priority
    order, whose name matches and holds neither "bold" nor "italic" (and
    the walk returns when every directory is readable): a bold or
    italic name is never taken, a clean match is found whenever there is
    one, and nothing is found when every match is bold or italic.  In
    [peak_detect_chart.py] the first candidate whose name holds none of
    "italic", "bold", "oblique" is taken when the candidate paths are
    not empty strings, and the first candidate when there is no such
    one.  When no file name holds the target, [makec.py] finds nothing
    and ends on ["monospace"] if its walk returns, and
    [peak_detect_chart.py] finds nothing and ends on ["sans-serif"] if
    the font is not in the font manager's cache and [findSystemFonts]
    returns. *)
Theorem font_resolution :
  (forall target dirs r,
      Makec.found_file target dirs = Returned r ->
      r = Makec.first_wanted target dirs) /\
  (forall target dirs,
      forallb Makec.readable dirs = true ->
      Makec.found_file target dirs
      = Returned (Makec.first_wanted target dirs)) /\
  (forall target dirs r p,
      Makec.found_file target dirs = Returned r ->
      In p (Makec.visited dirs) ->
      Makec.name_matches target p = true ->
      Makec.regular p = true ->
      exists q,
        r = Some q /\
        In q (Makec.visited dirs) /\
        Makec.name_matches target q = true /\
        Makec.regular q = true) /\
  (forall target dirs r,
      Makec.found_file target dirs = Returned r ->
      (forall p, In p (Makec.visited dirs) ->
                 Makec.name_matches target p = true ->
                 Makec.regular p = false) ->
      r = None) /\
  (forall candidates p,
      (forall q, In q candidates -> q <> "") ->
      In p candidates ->
      PeakChart.clean p = true ->
      exists q,
        PeakChart.found_path candidates = Some q /\
        find PeakChart.clean candidates = Some q /\
        In q candidates /\
        PeakChart.clean q = true) /\
  (forall candidates,
      (forall p, In p candidates -> PeakChart.clean p = false) ->
      PeakChart.found_path candidates = hd_error candidates) /\
  (forall fm dirs st r,
      Makec.found_file Makec.target_font_str dirs = Returned r ->
      (forall p, In p (Makec.visited dirs) ->
                 Makec.name_matches Makec.target_font_str p = false) ->
      r = None /\
      exists st',
        Makec.font_section fm dirs st = (Returned tt, st') /\
        font_family st' = "monospace") /\
  (forall fm font_name fonts st,
      existsb (String.eqb (lower font_name)) (map lower (ttflist fm))
      = false ->
      findSystemFonts fm = Returned fonts ->
      (forall path, In path fonts ->
         contains (PeakChart.clean_name font_name)
           (remove_char "_" (remove_char "-" (lower (basename path))))
         = false) ->
      PeakChart.found_path
        (PeakChart.collect (PeakChart.clean_name font_name) fonts) = None /\
      exists st',
        PeakChart.font_section fm font_name st = (Returned tt, st') /\
        font_family st' = "sans-serif").
Proof.
  split; [exact found_file_returned|].
  split; [exact found_file_readable|].
  split.
  { intros target dirs r p Hr Hin Hname Hreg.
    apply found_file_returned in Hr. subst r. unfold Makec.first_wanted.
    destruct (find_some_exists (Makec.wanted target) _ p Hin) as [q Hq].
    - unfold Makec.wanted. rewrite Hname, Hreg. reflexivity.
    - exists q. split; [exact Hq|]. apply find_some in Hq.
      destruct Hq as [Hq Hw]. unfold Makec.wanted in Hw.
      apply andb_true_iff in Hw. destruct Hw. auto. }
  split.
  { intros target dirs r Hr Hall. apply found_file_returned in Hr. subst r.
    apply find_none_all. intros p Hp. unfold Makec.wanted.
    destruct (Makec.name_matches target p) eqn:E; [|reflexivity].
    rewrite (Hall p Hp E). reflexivity. }
  split.
  { intros candidates p Hne Hin Hclean.
    destruct (find_some_exists PeakChart.clean candidates p Hin Hclean)
      as [q Hq].
    exists q. rewrite found_path_two_passes.
    rewrite (truthy_find candidates q Hne Hq).
    split; [exact Hq|]. split; [exact Hq|].
    apply find_some in Hq. exact Hq. }
  split.
  { intros candidates Hall. rewrite found_path_two_passes.
    rewrite (find_none_all PeakChart.clean candidates Hall). reflexivity. }
  split.
  { intros fm dirs st r Hr Hall.
    assert (Hnone : r = None).
    { apply found_file_returned in Hr. subst r.
      apply find_none_all. intros p Hp.
      unfold Makec.wanted. rewrite (Hall p Hp). reflexivity. }
    split; [exact Hnone|]. subst r. apply font_section_not_found. exact Hr. }
  intros fm font_name fonts st Hcache Hfonts Hall.
  assert (Hnone : PeakChart.collect (PeakChart.clean_name font_name) fonts
                  = []).
  { unfold PeakChart.collect. apply filter_nil_all. exact Hall. }
  split; [rewrite Hnone; reflexivity|].
  apply (peak_font_section_not_found fm font_name fonts st);
    assumption.
Qed.

Lemma font_resolution_witness :
  (exists q,
      Makec.found_file Makec.target_font_str
        [ {| Makec.dir_exists := Returned false;
             Makec.entries := [];
             Makec.walk_error := None |};
          {| Makec.dir_exists := Returned true;
             Makec.entries :=
               [ "/usr/share/fonts/io/IoskeleyMono_Regular-Bold.ttf";
                 "/usr/share/fonts/io/IoskeleyMono_Regular.ttf" ];
             Makec.walk_error := None |} ]
      = Returned (Some q) /\
      Makec.regular q = true) /\
  PeakChart.found_path
    [ "/usr/share/fonts/io/IoskeleyMono-Bold.ttf";
      "/usr/share/fonts/io/IoskeleyMono-Italic.ttf" ]
  = Some "/usr/share/fonts/io/IoskeleyMono-Bold.ttf".
Proof.
  destruct font_resolution as [_ [_ [Hfound [_ [_ [Hsecond _]]]]]].
  split.
  - destruct (Hfound Makec.target_font_str
                [ {| Makec.dir_exists := Returned false;
                     Makec.entries := [];
                     Makec.walk_error := None |};
                  {| Makec.dir_exists := Returned true;
                     Makec.entries :=
                       [ "/usr/share/fonts/io/IoskeleyMono_Regular-Bold.ttf";
                         "/usr/share/fonts/io/IoskeleyMono_Regular.ttf" ];
                     Makec.walk_error := None |} ]
                (Some "/usr/share/fonts/io/IoskeleyMono_Regular.ttf")
                "/usr/share/fonts/io/IoskeleyMono_Regular.ttf")
      as [q [Hq [_ [_ Hreg]]]].
    + vm_compute. reflexivity.
    + vm_compute. right. left. reflexivity.
    + vm_compute. reflexivity.
    + vm_compute. reflexivity.
    + exists q. split; [|exact Hreg].
      rewrite <- Hq. vm_compute. reflexivity.
  - apply (Hsecond [ "/usr/share/fonts/io/IoskeleyMono-Bold.ttf";
                     "/usr/share/fonts/io/IoskeleyMono-Italic.ttf" ]).
    intros p [Hp | [Hp | Hp]]; [subst p; vm_compute; reflexivity ..|].
    destruct Hp.
Defined.

(** C6 as it was stated fails on [makec.py]: with one existing, readable
    directory that holds a single matching file, a bold one, there is a
    match and no clean match, yet nothing is returned.  It also fails on
    [peak_detect_chart.py] when the only name without "bold" and
    "italic" is an oblique one: the bold file is returned. *)
Lemma bold_only_match_is_skipped :
  (let d := {| Makec.dir_exists := Returned true;
               Makec.entries :=
                 [ "/usr/share/fonts/io/IoskeleyMono_Regular-Bold.ttf" ];
               Makec.walk_error := None |} in
   Makec.visited [d]
   = [ "/usr/share/fonts/io/IoskeleyMono_Regular-Bold.ttf" ] /\
   Makec.name_matches Makec.target_font_str
     "/usr/share/fonts/io/IoskeleyMono_Regular-Bold.ttf" = true /\
   Makec.found_file Makec.target_font_str [d] = Returned None) /\
  (let fonts := [ "/usr/share/fonts/io/IoskeleyMono-Bold.ttf";
                  "/usr/share/fonts/io/IoskeleyMono-Oblique.ttf" ] in
   PeakChart.collect (PeakChart.clean_name "Ioskeley Mono") fonts = fonts /\
   Makec.regular "/usr/share/fonts/io/IoskeleyMono-Oblique.ttf" = true /\
   PeakChart.found_path
     (PeakChart.collect (PeakChart.clean_name "Ioskeley Mono") fonts)
   = Some "/usr/share/fonts/io/IoskeleyMono-Bold.ttf").
Proof. vm_compute. repeat split. Qed.




End FontsFacts.

(** * Further properties *)

(** ** Zero crossing: order, totality and the single crossing *)

Module ZeroCrossMore.
Import ZeroCross ZeroCrossFacts.

Section Generic.
Context {A : Type} `{Scalar A}.

Lemma where_from_sorted (mask : list bool) (k : nat) :
  StronglySorted Nat.lt (where_from k mask).
Proof.
  revert k. induction mask as [|b mask IH]; intros k; simpl.
  - constructor.
  - destruct b; [|apply IH]. constructor; [apply IH|].
    apply Forall_forall. intros i Hi. apply In_where_from in Hi.
    unfold Nat.lt. lia.
Qed.

(** [np.argmin] answers with an index of its argument. *)
Lemma argmin_from_bound (l : list A) (mp : A) (min_ind i : nat) :
  min_ind < i -> argmin_from mp min_ind i l < i + List.length l.
Proof.
  revert mp min_ind i. induction l as [|x rest IH]; intros mp min_ind i Hlt.
  - simpl. lia.
  - simpl. destruct (negb (geb x mp)).
    + destruct (isnan x); [lia|].
      specialize (IH x i (S i)). lia.
    + specialize (IH mp min_ind (S i)). lia.
Qed.

Lemma argmin_bound (l : list A) :
  l <> [] -> exists k, argmin l = Some k /\ k < List.length l.
Proof.
  destruct l as [|x rest]; [congruence|]. intros _. simpl.
  eexists. split; [reflexivity|].
  destruct (isnan x); [lia|].
  pose proof (argmin_from_bound rest x 0 1). lia.
Qed.

Lemma Forall2_length_eq {X Y} (R : X -> Y -> Prop) (l : list X)
    (l' : list Y) :
  Forall2 R l l' -> List.length l = List.length l'.
Proof. induction 1; simpl; congruence. Qed.

(** With [t] as long as [voltage] the refinement returns: the fallback
    without a detected pair, one of the candidates otherwise. *)
Lemma actual_crossing_total (t voltage : list A) (cross : A) :
  List.length t = List.length voltage ->
  exists c,
    actual_crossing t voltage cross = Some c /\
    (sign_change_indices voltage = [] -> c = cross) /\
    (sign_change_indices voltage <> [] ->
     exists cands,
       candidates t voltage = Some cands /\
       Forall2 (fun idx c => t_zero t voltage idx = Some c)
               (sign_change_indices voltage) cands /\
       In c cands).
Proof.
  intros Hlen. unfold actual_crossing.
  destruct (candidates_total t voltage Hlen) as [cands [Hc HF]].
  unfold candidates in Hc.
  destruct (sign_change_indices voltage) as [|idx rest] eqn:E.
  - simpl. exists cross. split; [reflexivity|]. split; [auto | congruence].
  - change (0 <? List.length (idx :: rest)) with true. cbv iota.
    rewrite Hc. simpl bind.
    assert (Hd : distances cands cross <> []).
    { inversion HF. subst. discriminate. }
    destruct (argmin_bound _ Hd) as [k [Hk Hbound]].
    rewrite Hk. simpl bind.
    unfold distances in Hbound. rewrite length_map in Hbound.
    destruct (nth_error cands k) as [c|] eqn:Ec.
    2:{ apply nth_error_None in Ec. lia. }
    exists c. split; [reflexivity|]. split; [congruence|].
    intros _. exists cands. split.
    + unfold candidates. rewrite E. exact Hc.
    + split; [exact HF|]. eapply nth_error_In. exact Ec.
Qed.

End Generic.

(** X1: the detected indices come out in increasing order, without
    repetition, and each has a right neighbour inside the array. *)
Theorem sign_change_indices_increasing {A : Type} `{Scalar A}
    (voltage : list A) :
  StronglySorted Nat.lt (sign_change_indices voltage) /\
  NoDup (sign_change_indices voltage) /\
  (forall idx, In idx (sign_change_indices voltage) ->
               idx + 1 < List.length voltage).
Proof.
  assert (Hs : StronglySorted Nat.lt (sign_change_indices voltage)).
  { unfold sign_change_indices, np_where. apply where_from_sorted. }
  split; [exact Hs|]. split.
  - induction Hs as [|a l Hl IH Ha]; constructor; [|exact IH].
    intros Hin. rewrite Forall_forall in Ha. specialize (Ha a Hin).
    unfold Nat.lt in Ha. lia.
  - intros idx Hin. apply In_sign_change_indices in Hin.
    destruct Hin as [v1 [v2 [_ [Hv2 _]]]].
    apply nth_error_Some. rewrite Hv2. discriminate.
Qed.

(** X2: with [t] as long as [voltage] the refinement never raises, for
    any scalar values (infinities and NaN included): it returns the
    theoretical crossing when nothing is detected and one of the
    candidates, of which there is one per detected index, otherwise. *)
Theorem refinement_never_raises {A : Type} `{Scalar A}
    (t voltage : list A) (cross : A) :
  List.length t = List.length voltage ->
  exists c,
    actual_crossing t voltage cross = Some c /\
    (sign_change_indices voltage = [] -> c = cross) /\
    (sign_change_indices voltage <> [] ->
     exists cands,
       candidates t voltage = Some cands /\
       List.length cands = List.length (sign_change_indices voltage) /\
       In c cands).
Proof.
  intros Hlen.
  destruct (actual_crossing_total t voltage cross Hlen) as [c [Hc [Hn Hs]]].
  exists c. split; [exact Hc|]. split; [exact Hn|].
  intros Hne. destruct (Hs Hne) as [cands [Hcands [HF Hin]]].
  exists cands. split; [exact Hcands|]. split; [|exact Hin].
  symmetry. exact (Forall2_length_eq _ _ _ HF).
Qed.

Lemma refinement_never_raises_witness :
  exists c,
    actual_crossing [0; 1; 2]%float [neg_infinity; infinity; nan]%float
                    1%float = Some c /\
    (sign_change_indices [neg_infinity; infinity; nan]%float = [] ->
     c = 1%float) /\
    (sign_change_indices [neg_infinity; infinity; nan]%float <> [] ->
     exists cands,
       candidates [0; 1; 2]%float [neg_infinity; infinity; nan]%float
       = Some cands /\
       List.length cands
       = List.length (sign_change_indices
                        [neg_infinity; infinity; nan]%float) /\
       In c cands).
Proof.
  apply (refinement_never_raises
           [0; 1; 2]%float [neg_infinity; infinity; nan]%float 1%float).
  reflexivity.
Defined.

(** X3: when exactly one pair is detected, its interpolated time is the
    crossing that is drawn, wherever the theoretical crossing lies. *)
Theorem single_crossing_is_selected {A : Type} `{Scalar A}
    (t voltage : list A) (cross c : A) (idx : nat) :
  sign_change_indices voltage = [idx] ->
  t_zero t voltage idx = Some c ->
  actual_crossing t voltage cross = Some c.
Proof.
  intros Hidx Hz. unfold actual_crossing. rewrite Hidx. simpl.
  rewrite Hz. simpl. destruct (isnan (absv (sub c cross))); reflexivity.
Qed.

Lemma single_crossing_is_selected_witness :
  actual_crossing [2.5; 2.75; 3]%float [-1; 1; 2]%float 7%float
  = Some 2.625%float.
Proof.
  apply (single_crossing_is_selected
           [2.5; 2.75; 3]%float [-1; 1; 2]%float 7%float 2.625%float 0).
  - vm_compute. reflexivity.
  - vm_compute. reflexivity.
Defined.

End ZeroCrossMore.

(** ** Order of binary64 values *)

Module Binary64Facts.
Import Binary64.

Lemma SFcompare_key (a b : spec_float) :
  a <> S754_nan -> b <> S754_nan ->
  SFcompare a b = Some (lex3 (key a) (key b)).
Proof.
  intros Ha Hb.
  destruct a as [sa|sa| |sa ma ea]; try congruence;
    destruct b as [sb|sb| |sb mb eb]; try congruence;
    try destruct sa; try destruct sb; try reflexivity.
  simpl. rewrite Z.compare_opp, (Z.compare_antisym ea eb).
  destruct (ea ?= eb)%Z; reflexivity.
Qed.

Lemma SFcompare_nan (a b : spec_float) :
  a = S754_nan \/ b = S754_nan -> SFcompare a b = None.
Proof.
  intros [Ha | Hb]; subst.
  - reflexivity.
  - destruct a as [sa|sa| |sa ma ea]; reflexivity.
Qed.

Lemma lex3_refl (a : Z * Z * Z) : lex3 a a = Eq.
Proof.
  destruct a as [[a1 a2] a3]. simpl. rewrite !Z.compare_refl. reflexivity.
Qed.

Lemma lex3_total (a b : Z * Z * Z) : lex3 a b <> Gt \/ lex3 b a <> Gt.
Proof.
  destruct a as [[a1 a2] a3], b as [[b1 b2] b3].
  lex3_cases; try (left; discriminate); right; discriminate.
Qed.

Lemma lex3_trans (a b c : Z * Z * Z) :
  lex3 a b <> Gt -> lex3 b c <> Gt -> lex3 a c <> Gt.
Proof.
  destruct a as [[a1 a2] a3], b as [[b1 b2] b3], c as [[c1 c2] c3].
  intros H1 H2. lex3_cases.
Qed.

Lemma lex3_antisym (a b : Z * Z * Z) : lex3 b a = CompOpp (lex3 a b).
Proof.
  destruct a as [[a1 a2] a3], b as [[b1 b2] b3]. lex3_cases; reflexivity.
Qed.

(** *** The comparisons of the [float] instance *)

Lemma not_nan_spec (x : float) : not_nan x <-> Prim2SF x <> S754_nan.
Proof.
  unfold not_nan, isnan. simpl. rewrite negb_false_iff, FloatAxioms.eqb_spec.
  unfold SFeqb. split.
  - intros Heq Hnan. rewrite Hnan in Heq. discriminate.
  - intros Hne. rewrite (SFcompare_key _ _ Hne Hne), lex3_refl. reflexivity.
Qed.

Lemma leb_key (x y : float) :
  leb x y = true <->
  not_nan x /\ not_nan y /\ lex3 (key (Prim2SF x)) (key (Prim2SF y)) <> Gt.
Proof.
  simpl. rewrite FloatAxioms.leb_spec. unfold SFleb. rewrite !not_nan_spec.
  split.
  - intros Hle.
    assert (Hx : Prim2SF x <> S754_nan).
    { intros Hn. rewrite (SFcompare_nan _ _ (or_introl Hn)) in Hle.
      discriminate. }
    assert (Hy : Prim2SF y <> S754_nan).
    { intros Hn. rewrite (SFcompare_nan _ _ (or_intror Hn)) in Hle.
      discriminate. }
    rewrite (SFcompare_key _ _ Hx Hy) in Hle.
    split; [exact Hx|]. split; [exact Hy|].
    destruct (lex3 _ _); congruence.
  - intros [Hx [Hy Hle]]. rewrite (SFcompare_key _ _ Hx Hy).
    destruct (lex3 _ _); congruence.
Qed.

Lemma ltb_key (x y : float) :
  ltb x y = true <->
  not_nan x /\ not_nan y /\ lex3 (key (Prim2SF x)) (key (Prim2SF y)) = Lt.
Proof.
  simpl. rewrite FloatAxioms.ltb_spec. unfold SFltb. rewrite !not_nan_spec.
  split.
  - intros Hlt.
    assert (Hx : Prim2SF x <> S754_nan).
    { intros Hn. rewrite (SFcompare_nan _ _ (or_introl Hn)) in Hlt.
      discriminate. }
    assert (Hy : Prim2SF y <> S754_nan).
    { intros Hn. rewrite (SFcompare_nan _ _ (or_intror Hn)) in Hlt.
      discriminate. }
    rewrite (SFcompare_key _ _ Hx Hy) in Hlt.
    split; [exact Hx|]. split; [exact Hy|].
    destruct (lex3 _ _); congruence.
  - intros [Hx [Hy Hlt]]. rewrite (SFcompare_key _ _ Hx Hy), Hlt.
    reflexivity.
Qed.

Lemma eqb_key (x y : float) :
  eqb x y = true <->
  not_nan x /\ not_nan y /\ lex3 (key (Prim2SF x)) (key (Prim2SF y)) = Eq.
Proof.
  simpl. rewrite FloatAxioms.eqb_spec. unfold SFeqb. rewrite !not_nan_spec.
  split.
  - intros Heq.
    assert (Hx : Prim2SF x <> S754_nan).
    { intros Hn. rewrite (SFcompare_nan _ _ (or_introl Hn)) in Heq.
      discriminate. }
    assert (Hy : Prim2SF y <> S754_nan).
    { intros Hn. rewrite (SFcompare_nan _ _ (or_intror Hn)) in Heq.
      discriminate. }
    rewrite (SFcompare_key _ _ Hx Hy) in Heq.
    split; [exact Hx|]. split; [exact Hy|].
    destruct (lex3 _ _); congruence.
  - intros [Hx [Hy Heq]]. rewrite (SFcompare_key _ _ Hx Hy), Heq.
    reflexivity.
Qed.

Lemma leb_total (x y : float) :
  not_nan x -> not_nan y -> leb x y = true \/ leb y x = true.
Proof.
  intros Hx Hy.
  destruct (lex3_total (key (Prim2SF x)) (key (Prim2SF y))) as [H | H].
  - left. apply leb_key. auto.
  - right. apply leb_key. auto.
Qed.

Lemma leb_trans (x y z : float) :
  leb x y = true -> leb y z = true -> leb x z = true.
Proof.
  rewrite !leb_key. intros [Hx [Hy Hxy]] [_ [Hz Hyz]].
  split; [exact Hx|]. split; [exact Hz|].
  exact (lex3_trans _ _ _ Hxy Hyz).
Qed.

Lemma leb_refl (x : float) : not_nan x -> leb x x = true.
Proof.
  intros Hx. apply leb_key. split; [exact Hx|]. split; [exact Hx|].
  rewrite lex3_refl. discriminate.
Qed.

Lemma ltb_not_leb (x y : float) : ltb x y = true -> leb y x = false.
Proof.
  rewrite ltb_key. intros [Hx [Hy Hlt]].
  destruct (leb y x) eqn:E; [|reflexivity].
  apply leb_key in E. destruct E as [_ [_ Hle]].
  rewrite lex3_antisym, Hlt in Hle. simpl in Hle. congruence.
Qed.

Lemma not_leb_ltb (x y : float) :
  not_nan x -> not_nan y -> leb y x = false -> ltb x y = true.
Proof.
  intros Hx Hy Hle. apply ltb_key. split; [exact Hx|]. split; [exact Hy|].
  destruct (lex3 (key (Prim2SF x)) (key (Prim2SF y))) eqn:E.
  - assert (Hyx : leb y x = true).
    { apply leb_key. split; [exact Hy|]. split; [exact Hx|].
      rewrite lex3_antisym, E. discriminate. }
    congruence.
  - reflexivity.
  - assert (Hyx : leb y x = true).
    { apply leb_key. split; [exact Hy|]. split; [exact Hx|].
      rewrite lex3_antisym, E. discriminate. }
    congruence.
Qed.

Lemma ltb_leb_trans (x y z : float) :
  ltb x y = true -> leb y z = true -> ltb x z = true.
Proof.
  rewrite !ltb_key, leb_key. intros [Hx [Hy Hxy]] [_ [Hz Hyz]].
  split; [exact Hx|]. split; [exact Hz|].
  destruct (Prim2SF x) as [sx|sx| |sx mx ex] eqn:Ex;
    destruct (key (Prim2SF y)) as [[b1 b2] b3];
    destruct (key (Prim2SF z)) as [[c1 c2] c3];
    match goal with
    | |- lex3 (key ?f) _ = Lt => destruct (key f) as [[a1 a2] a3]
    end; lex3_cases.
Qed.

Lemma eqb_leb (x y : float) :
  eqb x y = true -> leb x y = true /\ leb y x = true.
Proof.
  rewrite eqb_key, !leb_key. intros [Hx [Hy Heq]].
  repeat split; try assumption.
  - rewrite Heq. discriminate.
  - rewrite lex3_antisym, Heq. discriminate.
Qed.

Lemma zero_not_nan : not_nan zero.
Proof. reflexivity. Qed.

Lemma ltb_implies_leb (x y : float) : ltb x y = true -> leb x y = true.
Proof.
  rewrite ltb_key, leb_key. intros [Hx [Hy Hlt]].
  split; [exact Hx|]. split; [exact Hy|]. rewrite Hlt. discriminate.
Qed.

Lemma not_ltb_leb (x y : float) :
  not_nan x -> not_nan y -> ltb y x = false -> leb x y = true.
Proof.
  intros Hx Hy Hlt. apply leb_key. split; [exact Hx|]. split; [exact Hy|].
  intros Hgt.
  assert (Hyx : ltb y x = true).
  { apply ltb_key. split; [exact Hy|]. split; [exact Hx|].
    rewrite lex3_antisym, Hgt. reflexivity. }
  congruence.
Qed.

Lemma leb_nan_l (x y : float) : isnan x = true -> leb x y = false.
Proof.
  intros Hx. destruct (leb x y) eqn:E; [|reflexivity].
  apply leb_key in E. destruct E as [Hn _]. unfold not_nan in Hn. congruence.
Qed.

Lemma ltb_nan_l (x y : float) : isnan x = true -> ltb x y = false.
Proof.
  intros Hx. destruct (ltb x y) eqn:E; [|reflexivity].
  apply ltb_key in E. destruct E as [Hn _]. unfold not_nan in Hn. congruence.
Qed.

Lemma leb_nan_r (x y : float) : isnan y = true -> leb x y = false.
Proof.
  intros Hy. destruct (leb x y) eqn:E; [|reflexivity].
  apply leb_key in E. destruct E as [_ [Hn _]]. unfold not_nan in Hn.
  congruence.
Qed.

End Binary64Facts.

(** ** Peak detector: composition, binary64 and NaN *)

Module PeakDetectMore.
Import PeakDetect Binary64 Binary64Facts.

Section Generic.
Context {A : Type} `{Scalar A}.

Lemma maximum_absorbs (a x : A) : maximum a (maximum a x) = maximum a x.
Proof.
  unfold maximum at 2 3. destruct (orb (gtb a x) (isnan a)) eqn:E.
  - unfold maximum. destruct (orb (gtb a a) (isnan a)); reflexivity.
  - unfold maximum. rewrite E. reflexivity.
Qed.

Lemma accumulate_from_again (l : list A) (acc : A) :
  accumulate_from maximum acc (accumulate_from maximum acc l)
  = accumulate_from maximum acc l.
Proof.
  revert acc. induction l as [|x rest IH]; intros acc; simpl.
  - reflexivity.
  - rewrite maximum_absorbs, IH. reflexivity.
Qed.

Lemma length_accumulate_from_any (f : A -> A -> A) (l : list A) (acc : A) :
  List.length (accumulate_from f acc l) = List.length l.
Proof.
  revert acc. induction l as [|x rest IH]; intros acc; simpl.
  - reflexivity.
  - rewrite IH. reflexivity.
Qed.

End Generic.

(** X5: peak detection is idempotent: a signal that has been through the
    peak detector passes through it again unchanged, and the output
    starts with the first input.  This holds for every scalar type. *)
Theorem peak_detector_idempotent {A : Type} `{Scalar A} (voltage : list A) :
  peak_detector (peak_detector voltage) = peak_detector voltage /\
  List.length (peak_detector voltage) = List.length voltage /\
  nth_error (peak_detector voltage) 0 = nth_error voltage 0.
Proof.
  unfold peak_detector. destruct voltage as [|x rest]; simpl.
  - auto.
  - rewrite accumulate_from_again, length_accumulate_from_any. auto.
Qed.

(** *** binary64 *)

Lemma maximum_cases_binary64 (x y : float) :
  not_nan x -> not_nan y ->
  (maximum x y = x /\ leb y x = true) \/ (maximum x y = y /\ leb x y = true).
Proof.
  intros Hx Hy. unfold maximum, gtb.
  destruct (ltb y x) eqn:E; simpl orb.
  - left. split; [reflexivity|]. apply ltb_implies_leb. exact E.
  - unfold not_nan in Hx. rewrite Hx. right. split; [reflexivity|].
    apply not_ltb_leb; assumption.
Qed.

Lemma accumulate_from_nth_binary64 (l : list float) (acc : float) (i : nat)
    (p : float) :
  not_nan acc -> Forall not_nan l ->
  nth_error (accumulate_from maximum acc l) i = Some p ->
  not_nan p /\ leb acc p = true /\
  (forall j x, j <= i -> nth_error l j = Some x -> leb x p = true) /\
  (p = acc \/ exists j, j <= i /\ nth_error l j = Some p).
Proof.
  revert acc i. induction l as [|x rest IH]; intros acc i Hacc Hl Hp.
  - destruct i; discriminate.
  - inversion Hl as [|x' rest' Hx Hrest]. subst x' rest'.
    assert (Hm : not_nan (maximum acc x) /\ leb acc (maximum acc x) = true /\
                 leb x (maximum acc x) = true /\
                 (maximum acc x = acc \/ maximum acc x = x)).
    { destruct (maximum_cases_binary64 acc x Hacc Hx) as [[Heq Hle] | [Heq Hle]];
        rewrite Heq.
      - repeat split; auto. apply leb_refl. exact Hacc.
      - repeat split; auto. apply leb_refl. exact Hx. }
    destruct Hm as [Hmn [Hma [Hmx Hmo]]].
    simpl in Hp. destruct i as [|i]; simpl in Hp.
    + injection Hp as Hp. subst p.
      split; [exact Hmn|]. split; [exact Hma|]. split.
      * intros j y Hj Hy. assert (j = 0) by lia. subst j.
        simpl in Hy. injection Hy as Hy. subst y. exact Hmx.
      * destruct Hmo as [Hmo | Hmo]; [left; exact Hmo|].
        right. exists 0. split; [lia|]. simpl. congruence.
    + destruct (IH _ _ Hmn Hrest Hp) as [Hpn [Hacc' [Hall Hone]]].
      split; [exact Hpn|]. split; [exact (leb_trans _ _ _ Hma Hacc')|]. split.
      * intros j y Hj Hy. destruct j as [|j]; simpl in Hy.
        -- injection Hy as Hy. subst y. exact (leb_trans _ _ _ Hmx Hacc').
        -- apply (Hall j); [lia | exact Hy].
      * destruct Hone as [Heq | [j [Hj Hy]]].
        -- destruct Hmo as [Hmo | Hmo].
           ++ left. congruence.
           ++ right. exists 0. split; [lia|]. simpl. congruence.
        -- right. exists (S j). split; [lia | exact Hy].
Qed.

Lemma accumulate_from_mono_binary64 (l : list float) (acc : float)
    (i j : nat) (p q : float) :
  not_nan acc -> Forall not_nan l -> i <= j ->
  nth_error (accumulate_from maximum acc l) i = Some p ->
  nth_error (accumulate_from maximum acc l) j = Some q ->
  leb p q = true.
Proof.
  revert acc i j.
  induction l as [|x rest IH]; intros acc i j Hacc Hl Hij Hp Hq.
  - destruct i; discriminate.
  - inversion Hl as [|x' rest' Hx Hrest]. subst x' rest'.
    assert (Hmn : not_nan (maximum acc x)).
    { destruct (maximum_cases_binary64 acc x Hacc Hx) as [[Heq _] | [Heq _]];
        rewrite Heq; assumption. }
    simpl in Hp, Hq. destruct i as [|i]; destruct j as [|j]; try lia;
      simpl in Hp, Hq.
    + rewrite Hp in Hq. injection Hq as Hq. subst q. injection Hp as Hp.
      subst p. apply leb_refl. exact Hmn.
    + injection Hp as Hp. subst p.
      destruct (accumulate_from_nth_binary64 _ _ _ _ Hmn Hrest Hq)
        as [_ [Hle _]].
      exact Hle.
    + apply (IH (maximum acc x) i j); try assumption. lia.
Qed.

(** The peak detector on samples without NaN: what it holds at an
    index. *)
Lemma peak_detector_nth_binary64 (voltage : list float) (i : nat)
    (p : float) :
  Forall not_nan voltage ->
  nth_error (peak_detector voltage) i = Some p ->
  (exists j, j <= i /\ nth_error voltage j = Some p) /\
  (forall j x, j <= i -> nth_error voltage j = Some x -> leb x p = true).
Proof.
  intros Hall Hp. unfold peak_detector in Hp.
  destruct voltage as [|x rest]; simpl in Hp; [destruct i; discriminate|].
  inversion Hall as [|x' rest' Hx Hrest]. subst x' rest'.
  destruct i as [|i]; simpl in Hp.
  - injection Hp as Hp. subst p. split.
    + exists 0. split; [lia | reflexivity].
    + intros j y Hj Hy. assert (j = 0) by lia. subst j.
      simpl in Hy. injection Hy as Hy. subst y. apply leb_refl. exact Hx.
  - destruct (accumulate_from_nth_binary64 _ _ _ _ Hx Hrest Hp)
      as [_ [Hacc [Hle Hone]]].
    split.
    + destruct Hone as [Heq | [j [Hj Hy]]].
      * exists 0. split; [lia|]. simpl. congruence.
      * exists (S j). split; [lia | exact Hy].
    + intros j y Hj Hy. destruct j as [|j]; simpl in Hy.
      * injection Hy as Hy. subst y. exact Hacc.
      * apply (Hle j); [lia | exact Hy].
Qed.

(** The peak detector on samples without NaN never decreases. *)
Lemma peak_detector_mono_binary64 (voltage : list float) (i j : nat)
    (p q : float) :
  Forall not_nan voltage -> i <= j ->
  nth_error (peak_detector voltage) i = Some p ->
  nth_error (peak_detector voltage) j = Some q ->
  leb p q = true.
Proof.
  intros Hall Hij Hp Hq. unfold peak_detector in Hp, Hq.
  destruct voltage as [|x rest]; simpl in Hp, Hq; [destruct i; discriminate|].
  inversion Hall as [|x' rest' Hx Hrest]. subst x' rest'.
  destruct i as [|i]; destruct j as [|j]; try lia; simpl in Hp, Hq.
  - rewrite Hp in Hq. injection Hq as Hq. subst q. injection Hp as Hp.
    subst p. apply leb_refl. exact Hx.
  - injection Hp as Hp. subst p.
    destruct (accumulate_from_nth_binary64 _ _ _ _ Hx Hrest Hq)
      as [_ [Hacc _]].
    exact Hacc.
  - apply (accumulate_from_mono_binary64 rest x i j); try assumption.
    lia.
Qed.

(** The output has an entry wherever the input has one. *)
Lemma peak_detector_defined (voltage : list float) (i : nat) :
  i < List.length voltage ->
  exists p, nth_error (peak_detector voltage) i = Some p.
Proof.
  intros Hi. destruct (nth_error (peak_detector voltage) i) as [p|] eqn:Ep.
  - exists p. reflexivity.
  - apply nth_error_None in Ep. unfold peak_detector, accumulate in Ep.
    destruct voltage as [|x rest]; simpl in Ep, Hi; [lia|].
    rewrite length_accumulate_from_any in Ep. lia.
Qed.

(** X6: on binary64 samples without NaN the peak detector holds at
    every index a sample of that index or before that no sample up to
    there exceeds, and its output never decreases. *)
Theorem peak_detector_prefix_maximum_binary64 (voltage : list float) :
  Forall not_nan voltage ->
  (forall i, i < List.length voltage ->
     exists p,
       nth_error (peak_detector voltage) i = Some p /\
       (exists j, j <= i /\ nth_error voltage j = Some p) /\
       (forall j x, j <= i -> nth_error voltage j = Some x ->
                    leb x p = true)) /\
  (forall i j p q, i <= j ->
     nth_error (peak_detector voltage) i = Some p ->
     nth_error (peak_detector voltage) j = Some q ->
     leb p q = true).
Proof.
  intros Hall. split.
  - intros i Hi. destruct (peak_detector_defined voltage i Hi) as [p Hp].
    exists p. split; [exact Hp|].
    exact (peak_detector_nth_binary64 voltage i p Hall Hp).
  - intros i j p q Hij Hp Hq.
    exact (peak_detector_mono_binary64 voltage i j p q Hall Hij Hp Hq).
Qed.

Lemma peak_detector_prefix_maximum_binary64_witness :
  (forall i, i < List.length [1; 3; 2; -1; 4]%float ->
     exists p,
       nth_error (peak_detector [1; 3; 2; -1; 4]%float) i = Some p /\
       (exists j, j <= i /\ nth_error [1; 3; 2; -1; 4]%float j = Some p) /\
       (forall j x, j <= i -> nth_error [1; 3; 2; -1; 4]%float j = Some x ->
                    leb x p = true)) /\
  (forall i j p q, i <= j ->
     nth_error (peak_detector [1; 3; 2; -1; 4]%float) i = Some p ->
     nth_error (peak_detector [1; 3; 2; -1; 4]%float) j = Some q ->
     leb p q = true).
Proof.
  apply (peak_detector_prefix_maximum_binary64 [1; 3; 2; -1; 4]%float).
  repeat (apply Forall_cons; [reflexivity|]). apply Forall_nil.
Defined.

(** A NaN accumulator stays, and a NaN sample replaces any other. *)
Lemma maximum_nan (acc x : float) :
  isnan acc = true \/ isnan x = true -> isnan (maximum acc x) = true.
Proof.
  intros Hnan. unfold maximum.
  destruct (isnan acc) eqn:Eacc.
  - rewrite orb_true_r. exact Eacc.
  - destruct Hnan as [Hacc | Hx]; [discriminate|].
    rewrite orb_false_r. unfold gtb.
    rewrite (ltb_nan_l x acc Hx). exact Hx.
Qed.

Lemma accumulate_from_nan (l : list float) (acc : float) (i : nat)
    (p : float) :
  isnan acc = true ->
  nth_error (accumulate_from maximum acc l) i = Some p ->
  isnan p = true.
Proof.
  revert acc i. induction l as [|x rest IH]; intros acc i Hacc Hp.
  - destruct i; discriminate.
  - assert (Hm : isnan (maximum acc x) = true).
    { apply maximum_nan. left. exact Hacc. }
    simpl in Hp. destruct i as [|i]; simpl in Hp.
    + injection Hp as Hp. subst p. exact Hm.
    + exact (IH _ _ Hm Hp).
Qed.

Lemma accumulate_from_nan_later (l : list float) (acc : float) (k i : nat)
    (x p : float) :
  nth_error l k = Some x -> isnan x = true -> k <= i ->
  nth_error (accumulate_from maximum acc l) i = Some p ->
  isnan p = true.
Proof.
  revert acc k i. induction l as [|y rest IH]; intros acc k i Hk Hx Hki Hp.
  - destruct k; discriminate.
  - simpl in Hp. destruct k as [|k]; simpl in Hk.
    + injection Hk as Hk. subst y.
      assert (Hm : isnan (maximum acc x) = true).
      { apply maximum_nan. right. exact Hx. }
      destruct i as [|i]; simpl in Hp.
      * injection Hp as Hp. subst p. exact Hm.
      * exact (accumulate_from_nan _ _ _ _ Hm Hp).
    + destruct i as [|i]; [lia|]. simpl in Hp.
      apply (IH (maximum acc y) k i); try assumption. lia.
Qed.

(** X7: a NaN sample blinds the peak detector: from the index of the
    first NaN on, every output is a NaN (binary64). *)
Theorem peak_detector_nan_sticks (voltage : list float) (k i : nat)
    (x p : float) :
  nth_error voltage k = Some x ->
  isnan x = true ->
  k <= i ->
  nth_error (peak_detector voltage) i = Some p ->
  isnan p = true.
Proof.
  intros Hk Hx Hki Hp. unfold peak_detector in Hp.
  destruct voltage as [|y rest]; [destruct k; discriminate|].
  simpl in Hp. destruct k as [|k]; simpl in Hk.
  - injection Hk as Hk. subst y. destruct i as [|i]; simpl in Hp.
    + injection Hp as Hp. subst p. exact Hx.
    + exact (accumulate_from_nan _ _ _ _ Hx Hp).
  - destruct i as [|i]; [lia|]. simpl in Hp.
    apply (accumulate_from_nan_later rest y k i x p); try assumption. lia.
Qed.

Lemma peak_detector_nan_sticks_witness :
  exists p,
    nth_error (peak_detector [1; nan; 5; 7]%float) 3 = Some p /\
    isnan p = true.
Proof.
  destruct (nth_error (peak_detector [1; nan; 5; 7]%float) 3) as [p|] eqn:E.
  - exists p. split; [reflexivity|].
    apply (peak_detector_nan_sticks [1; nan; 5; 7]%float 1 3 nan p).
    + reflexivity.
    + reflexivity.
    + lia.
    + exact E.
  - vm_compute in E. discriminate.
Defined.

End PeakDetectMore.

(** ** Zero crossing on binary64 *)

Module ZeroCrossBinary64.
Import ZeroCross ZeroCrossFacts Binary64 Binary64Facts.

Lemma ltb_leb_weak (x y : float) : ltb x y = true -> leb x y = true.
Proof.
  rewrite ltb_key, leb_key. intros [Hx [Hy Hlt]].
  split; [exact Hx|]. split; [exact Hy|]. rewrite Hlt. discriminate.
Qed.

Lemma Forall_nth_error {X} (P : X -> Prop) (l : list X) (i : nat) (x : X) :
  Forall P l -> nth_error l i = Some x -> P x.
Proof.
  intros Hall Hi. rewrite Forall_forall in Hall. apply Hall.
  eapply nth_error_In. exact Hi.
Qed.

(** X8: a rising edge is flagged once: two neighbouring indices are
    never both detected (binary64). *)
Theorem detected_indices_not_adjacent (voltage : list float) (i : nat) :
  In i (sign_change_indices voltage) ->
  ~ In (i + 1) (sign_change_indices voltage).
Proof.
  intros Hi Hnext.
  apply In_sign_change_indices in Hi.
  destruct Hi as [v1 [v2 [_ [Hv2 [_ Hge]]]]].
  apply In_sign_change_indices in Hnext.
  destruct Hnext as [w1 [w2 [Hw1 [_ [Hlt _]]]]].
  rewrite Hv2 in Hw1. injection Hw1 as Hw1. subst w1.
  unfold geb in Hge. apply ltb_not_leb in Hlt. congruence.
Qed.

Lemma detected_indices_not_adjacent_witness :
  ~ In (0 + 1) (sign_change_indices [-1; 0; 1; -2; 3]%float).
Proof.
  apply (detected_indices_not_adjacent [-1; 0; 1; -2; 3]%float 0).
  vm_compute. left. reflexivity.
Defined.

(** X9: on binary64 too the two samples of a detected pair differ, so
    the loop always interpolates and never appends [t1] unchanged. *)
Theorem detected_pair_interpolates_binary64 (t voltage : list float)
    (idx : nat) (v1 v2 t1 t2 : float) :
  In idx (sign_change_indices voltage) ->
  nth_error voltage idx = Some v1 ->
  nth_error voltage (idx + 1) = Some v2 ->
  nth_error t idx = Some t1 ->
  nth_error t (idx + 1) = Some t2 ->
  neqb v2 v1 = true /\
  t_zero t voltage idx = Some (t1 - v1 * (t2 - t1) / (v2 - v1))%float.
Proof.
  intros Hin Hv1 Hv2 Ht1 Ht2.
  apply In_sign_change_indices in Hin.
  destruct Hin as [w1 [w2 [Hw1 [Hw2 [Hlt Hge]]]]].
  rewrite Hv1 in Hw1. rewrite Hv2 in Hw2.
  injection Hw1 as Hw1. injection Hw2 as Hw2. subst w1 w2.
  assert (Hne : neqb v2 v1 = true).
  { unfold neqb. destruct (eqb v2 v1) eqn:E; [|reflexivity].
    apply eqb_leb in E. destruct E as [Hle _]. unfold geb in Hge.
    pose proof (leb_trans _ _ _ Hge Hle) as Hz.
    apply ltb_not_leb in Hlt. congruence. }
  split; [exact Hne|].
  unfold t_zero. rewrite Hv1, Hv2, Ht1, Ht2. simpl bind.
  rewrite Hne. reflexivity.
Qed.

Lemma detected_pair_interpolates_binary64_witness :
  neqb 1%float (-1)%float = true /\
  t_zero [2.5; 2.75]%float [-1; 1]%float 0
  = Some (2.5 - -1 * (2.75 - 2.5) / (1 - -1))%float.
Proof.
  apply (detected_pair_interpolates_binary64
           [2.5; 2.75]%float [-1; 1]%float 0 (-1)%float 1%float
           2.5%float 2.75%float).
  - vm_compute. left. reflexivity.
  - reflexivity.
  - reflexivity.
  - reflexivity.
  - reflexivity.
Defined.

(** [argmin_from] on values without NaN. *)
Lemma argmin_from_least_binary64 (l pre : list float) (mp : float)
    (min_ind : nat) :
  Forall not_nan pre -> Forall not_nan l ->
  nth_error pre min_ind = Some mp ->
  (forall j x, nth_error pre j = Some x -> leb mp x = true) ->
  (forall j x, j < min_ind -> nth_error pre j = Some x -> ltb mp x = true) ->
  exists m,
    nth_error (pre ++ l) (argmin_from mp min_ind (List.length pre) l)
    = Some m /\
    (forall j x, nth_error (pre ++ l) j = Some x -> leb m x = true) /\
    (forall j x, j < argmin_from mp min_ind (List.length pre) l ->
                 nth_error (pre ++ l) j = Some x -> ltb m x = true).
Proof.
  revert pre mp min_ind.
  induction l as [|x rest IH];
    intros pre mp min_ind Hpre Hl Hmp Hall Hbefore.
  - simpl. rewrite app_nil_r. eauto.
  - inversion Hl as [|x' rest' Hx Hrest]. subst x' rest'.
    assert (Hmpn : not_nan mp) by exact (Forall_nth_error _ _ _ _ Hpre Hmp).
    assert (Hmin : min_ind < List.length pre).
    { apply nth_error_Some. rewrite Hmp. discriminate. }
    assert (Hlen : List.length (pre ++ [x]) = S (List.length pre)).
    { rewrite length_app. simpl. lia. }
    assert (Hshape : (pre ++ [x]) ++ rest = pre ++ x :: rest).
    { rewrite <- app_assoc. reflexivity. }
    assert (Hpre' : Forall not_nan (pre ++ [x])).
    { apply Forall_app. split; [exact Hpre|]. constructor; [exact Hx|].
      constructor. }
    assert (Hsnoc : forall j y, nth_error (pre ++ [x]) j = Some y ->
                      nth_error pre j = Some y \/
                      (j = List.length pre /\ y = x)).
    { intros j y Hj. destruct (Nat.lt_ge_cases j (List.length pre)) as [Hlt|Hg].
      - rewrite nth_error_app1 in Hj by exact Hlt. left. exact Hj.
      - rewrite nth_error_app2 in Hj by exact Hg. right.
        destruct (j - List.length pre) as [|d] eqn:Ed; simpl in Hj.
        + injection Hj as Hj. split; [lia | congruence].
        + destruct d; discriminate. }
    simpl argmin_from. unfold not_nan in Hx. rewrite Hx.
    destruct (PrimFloat.leb mp x) eqn:Ecmp; simpl negb; cbv iota.
    + change (leb mp x = true) in Ecmp.
      specialize (IH (pre ++ [x]) mp min_ind).
      rewrite Hlen, Hshape in IH. apply IH; try assumption.
      * rewrite nth_error_app1 by exact Hmin. exact Hmp.
      * intros j y Hj. destruct (Hsnoc j y Hj) as [Hp | [_ Hy]].
        -- exact (Hall j y Hp).
        -- subst. exact Ecmp.
      * intros j y Hlt' Hj. destruct (Hsnoc j y Hj) as [Hp | [Hj' _]].
        -- exact (Hbefore j y Hlt' Hp).
        -- lia.
    + change (leb mp x = false) in Ecmp.
      assert (Hlt : ltb x mp = true).
      { apply not_leb_ltb; assumption. }
      specialize (IH (pre ++ [x]) x (List.length pre)).
      rewrite Hlen, Hshape in IH. apply IH; try assumption.
      * rewrite nth_error_app2 by lia. rewrite Nat.sub_diag. reflexivity.
      * intros j y Hj. destruct (Hsnoc j y Hj) as [Hp | [_ Hy]].
        -- apply ltb_leb_weak.
           exact (ltb_leb_trans _ _ _ Hlt (Hall j y Hp)).
        -- subst. apply leb_refl. exact Hx.
      * intros j y Hlt' Hj. destruct (Hsnoc j y Hj) as [Hp | [Hj' _]].
        -- exact (ltb_leb_trans _ _ _ Hlt (Hall j y Hp)).
        -- lia.
Qed.

Lemma argmin_least_binary64 (l : list float) :
  Forall not_nan l -> l <> [] ->
  exists k m,
    argmin l = Some k /\ nth_error l k = Some m /\
    (forall j x, nth_error l j = Some x -> leb m x = true) /\
    (forall j x, j < k -> nth_error l j = Some x -> ltb m x = true).
Proof.
  intros Hall Hne. destruct l as [|x rest]; [congruence|].
  inversion Hall as [|x' rest' Hx Hrest]. subst x' rest'.
  simpl argmin. unfold not_nan in Hx. rewrite Hx.
  destruct (argmin_from_least_binary64 rest [x] x 0)
    as [m [Hm [Hleast Hbefore]]].
  - constructor; [exact Hx | constructor].
  - exact Hrest.
  - reflexivity.
  - intros j y Hj. destruct j as [|[|j]]; simpl in Hj; try discriminate.
    injection Hj as Hj. subst y. apply leb_refl. exact Hx.
  - intros j y Hlt. lia.
  - exists (argmin_from x 0 1 rest), m. auto.
Qed.

(** X10: the selection rule on binary64.  When the distances
    [|candidates - cross|] hold no NaN, the crossing that is drawn is a
    candidate no other candidate is nearer to [cross] than, and every
    candidate before it is strictly farther. *)
Theorem actual_crossing_nearest_binary64 (t voltage : list float)
    (cross : float) (cands : list float) :
  sign_change_indices voltage <> [] ->
  candidates t voltage = Some cands ->
  Forall not_nan (distances cands cross) ->
  exists k c,
    nth_error cands k = Some c /\
    actual_crossing t voltage cross = Some c /\
    (forall j c', nth_error cands j = Some c' ->
       leb (abs (c - cross)) (abs (c' - cross)) = true) /\
    (forall j c', j < k -> nth_error cands j = Some c' ->
       ltb (abs (c - cross)) (abs (c' - cross)) = true).
Proof.
  intros Hne Hc Hnan.
  assert (HF : Forall2 (fun idx c => t_zero t voltage idx = Some c)
                       (sign_change_indices voltage) cands).
  { unfold candidates in Hc. apply candidates_loop_Forall2 in Hc.
    destruct Hc as [cs [Hcs HF]]. simpl in Hcs. subst cs. exact HF. }
  assert (Hd : distances cands cross <> []).
  { unfold distances. destruct cands as [|c0 cands]; [|discriminate].
    inversion HF as [Hnil|]. congruence. }
  destruct (argmin_least_binary64 _ Hnan Hd)
    as [k [m [Hk [Hm [Hleast Hbefore]]]]].
  unfold distances in Hm. rewrite nth_error_map in Hm.
  destruct (nth_error cands k) as [c|] eqn:Ec; [|discriminate].
  simpl in Hm. injection Hm as Hm. subst m.
  exists k, c. split; [exact Ec|]. split.
  - unfold actual_crossing.
    assert (Hpos : (0 <? List.length (sign_change_indices voltage)) = true).
    { apply Nat.ltb_lt.
      destruct (sign_change_indices voltage); [congruence | simpl; lia]. }
    rewrite Hpos. unfold candidates in Hc. rewrite Hc. simpl bind.
    rewrite Hk. simpl bind. exact Ec.
  - split.
    + intros j c' Hj. apply (Hleast j).
      unfold distances. rewrite nth_error_map, Hj. reflexivity.
    + intros j c' Hlt Hj. apply (Hbefore j); [exact Hlt|].
      unfold distances. rewrite nth_error_map, Hj. reflexivity.
Qed.

Lemma actual_crossing_nearest_binary64_witness :
  exists k c,
    nth_error [0.5; 3.25]%float k = Some c /\
    actual_crossing [0; 1; 2; 3; 4]%float [-1; 1; -1; -1; 3]%float 3%float
    = Some c /\
    (forall j c', nth_error [0.5; 3.25]%float j = Some c' ->
       leb (abs (c - 3)) (abs (c' - 3)) = true) /\
    (forall j c', j < k -> nth_error [0.5; 3.25]%float j = Some c' ->
       ltb (abs (c - 3)) (abs (c' - 3)) = true).
Proof.
  apply (actual_crossing_nearest_binary64
           [0; 1; 2; 3; 4]%float [-1; 1; -1; -1; 3]%float 3%float
           [0.5; 3.25]%float).
  - vm_compute. discriminate.
  - vm_compute. reflexivity.
  - repeat (apply Forall_cons; [reflexivity|]). apply Forall_nil.
Defined.

End ZeroCrossBinary64.

(** ** Square waves and their XOR: shapes and composition *)

Module XorMore.
Import Xor XorFacts.

Lemma xorb_swap (a b : list bool) :
  map (fun p => xorb (fst p) (snd p)) (combine a b)
  = map (fun p => xorb (fst p) (snd p)) (combine b a).
Proof.
  revert b. induction a as [|x a IH]; intros b.
  - destruct b; reflexivity.
  - destruct b as [|y b]; [reflexivity|]. simpl.
    rewrite IH, xorb_comm. reflexivity.
Qed.

Lemma broadcast2_xorb_comm (a b : list bool) :
  broadcast2 xorb a b = broadcast2 xorb b a.
Proof.
  unfold broadcast2. rewrite (Nat.eqb_sym (List.length b) (List.length a)).
  destruct (List.length a =? List.length b) eqn:E.
  - rewrite xorb_swap. reflexivity.
  - destruct a as [|x [|x' a']]; destruct b as [|y [|y' b']];
      try reflexivity; try discriminate;
      apply (f_equal Some); apply map_ext; intros z; apply xorb_comm.
Qed.

Lemma broadcast2_None {X Y Z} (f : X -> Y -> Z) (a : list X) (b : list Y) :
  broadcast2 f a b = None <->
  List.length a <> List.length b /\
  List.length a <> 1 /\ List.length b <> 1.
Proof.
  unfold broadcast2.
  destruct (List.length a =? List.length b) eqn:E.
  - apply Nat.eqb_eq in E. split; [discriminate|]. intros [Hne _]. lia.
  - apply Nat.eqb_neq in E.
    destruct a as [|x [|x' a']]; destruct b as [|y [|y' b']]; simpl in *;
      split; try discriminate; try (intros [_ [H1 H2]]; lia);
      try (intros _; repeat split; lia).
Qed.

Lemma broadcast2_length {X Y Z} (f : X -> Y -> Z) (a : list X) (b : list Y)
    (r : list Z) :
  broadcast2 f a b = Some r ->
  List.length r
  = if List.length a =? 1 then List.length b else List.length a.
Proof.
  unfold broadcast2.
  destruct (List.length a =? List.length b) eqn:E.
  - apply Nat.eqb_eq in E. intros Hr. injection Hr as Hr. subst r.
    rewrite length_map, length_combine, <- E, Nat.min_id.
    destruct (List.length a =? 1); reflexivity.
  - destruct a as [|x [|x' a']]; destruct b as [|y [|y' b']];
      try discriminate; intros Hr; injection Hr as Hr; subst r;
      simpl; rewrite ?length_map; reflexivity.
Qed.

(** X11: the shapes [xor_sig] accepts.  It raises (NumPy's broadcasting
    error) exactly when the two arrays differ in length and neither has
    one element.  When it returns, its result is as long as the second
    array if the first has exactly one element, and as long as the first
    array otherwise (the common length, when the two agree). *)
Theorem xor_sig_shapes (sq1 sq2 : list float) :
  (xor_sig sq1 sq2 = None <->
   List.length sq1 <> List.length sq2 /\
   List.length sq1 <> 1 /\ List.length sq2 <> 1) /\
  (forall xs, xor_sig sq1 sq2 = Some xs ->
     List.length xs
     = if List.length sq1 =? 1 then List.length sq2 else List.length sq1).
Proof.
  unfold xor_sig, xor_bool. split.
  - rewrite <- (length_map (fun x => gtb x threshold) sq1).
    rewrite <- (length_map (fun x => gtb x threshold) sq2).
    rewrite <- (broadcast2_None xorb).
    destruct (broadcast2 xorb _ _); simpl; split; congruence.
  - intros xs Hxs.
    destruct (broadcast2 xorb (map (fun x => gtb x threshold) sq1)
                (map (fun x => gtb x threshold) sq2)) as [xb|] eqn:E;
      [|discriminate].
    simpl in Hxs. injection Hxs as Hxs. subst xs.
    unfold where_level. rewrite length_map.
    apply broadcast2_length in E. rewrite !length_map in E. exact E.
Qed.

(** X12: [xor_sig] does not depend on the order of its two inputs, and a
    signal XORed with itself is low everywhere. *)
Theorem xor_sig_symmetric (sq1 sq2 : list float) :
  xor_sig sq1 sq2 = xor_sig sq2 sq1 /\
  xor_sig sq1 sq1 = Some (map (fun _ => 0%float) sq1).
Proof.
  unfold xor_sig, xor_bool. split.
  - rewrite broadcast2_xorb_comm. reflexivity.
  - rewrite broadcast2_same_length by reflexivity. simpl bind. f_equal.
    unfold where_level. rewrite map_map.
    induction sq1 as [|x rest IH]; simpl; [reflexivity|].
    rewrite xorb_nilpotent, IH. reflexivity.
Qed.

Lemma square_wave_levels (sine_wave : list float) (i : nat) (s : float) :
  nth_error sine_wave i = Some s ->
  nth_error (square_wave sine_wave) i
  = Some (if geb s 0%float then high_level else 0%float).
Proof.
  intros Hs. unfold square_wave, where_level.
  rewrite !nth_error_map, Hs. reflexivity.
Qed.

(** X13: from the sines to the XOR.  For two sine arrays of one length,
    the square waves take only the levels 0 and 3.3, and the XOR of the
    two square waves is 3.3 exactly where one sine is non-negative and
    the other is not, 0 elsewhere (a NaN sample counts as negative). *)
Theorem xor_of_square_waves (sin1 sin2 : list float) :
  List.length sin1 = List.length sin2 ->
  Forall (fun x => x = 0%float \/ x = high_level) (square_wave sin1) /\
  exists xs,
    xor_sig (square_wave sin1) (square_wave sin2) = Some xs /\
    List.length xs = List.length sin1 /\
    (forall i a b,
        nth_error sin1 i = Some a ->
        nth_error sin2 i = Some b ->
        nth_error xs i
        = Some (if xorb (geb a 0%float) (geb b 0%float)
                then high_level else 0%float)).
Proof.
  intros Hlen. split.
  - unfold square_wave, where_level. rewrite map_map.
    apply Forall_forall. intros x Hx. apply in_map_iff in Hx.
    destruct Hx as [s [Hs _]]. subst x.
    destruct (geb s 0%float); auto.
  - unfold xor_sig, xor_bool.
    rewrite broadcast2_same_length.
    2:{ unfold square_wave, where_level. rewrite !length_map. exact Hlen. }
    simpl bind. eexists. split; [reflexivity|]. split.
    + unfold square_wave, where_level.
      rewrite !length_map, length_combine, !length_map. lia.
    + intros i a b Ha Hb. unfold where_level at 1.
      rewrite !nth_error_map, nth_error_combine, !nth_error_map.
      rewrite (square_wave_levels sin1 i a Ha).
      rewrite (square_wave_levels sin2 i b Hb).
      unfold geb. simpl.
      destruct (PrimFloat.leb 0 a); destruct (PrimFloat.leb 0 b);
        reflexivity.
Qed.

Lemma xor_of_square_waves_witness :
  Forall (fun x => x = 0%float \/ x = high_level)
         (square_wave [0; 2.5; -2.5; nan]%float) /\
  exists xs,
    xor_sig (square_wave [0; 2.5; -2.5; nan]%float)
            (square_wave [-1; 1; 1; 1]%float) = Some xs /\
    List.length xs = List.length [0; 2.5; -2.5; nan]%float /\
    (forall i a b,
        nth_error [0; 2.5; -2.5; nan]%float i = Some a ->
        nth_error [-1; 1; 1; 1]%float i = Some b ->
        nth_error xs i
        = Some (if xorb (geb a 0%float) (geb b 0%float)
                then high_level else 0%float)).
Proof.
  apply (xor_of_square_waves [0; 2.5; -2.5; nan]%float [-1; 1; 1; 1]%float).
  reflexivity.
Defined.

End XorMore.

(** ** Legend: de-duplication of the labels *)

Module LegendFacts.
Import Legend.

Section Dict.
Context {V : Type}.

#[local] Abbreviation step := (fun (d : @dict_items V) (p : string * V) =>
                    setitem d (fst p) (snd p)).

Lemma In_keys_setitem (d : @dict_items V) (k q : string) (v : V) :
  In q (keys (setitem d k v)) <-> q = k \/ In q (keys d).
Proof.
  induction d as [|[k' v'] rest IH]; simpl.
  - split; [intros [H | []]; auto | intros [H | []]; auto].
  - destruct (String.eqb k' k) eqn:E; simpl.
    + apply String.eqb_eq in E. subst k'. split; [auto|].
      intros [H | H]; [left; congruence | exact H].
    + fold (keys (setitem rest k v)). fold (keys rest). rewrite IH.
      split; intros H; decompose [or] H; auto.
Qed.

Lemma setitem_fresh (d : @dict_items V) (k : string) (v : V) :
  ~ In k (keys d) -> setitem d k v = (d ++ [(k, v)])%list.
Proof.
  induction d as [|[k' v'] rest IH]; simpl; intros Hfresh; [reflexivity|].
  destruct (String.eqb k' k) eqn:E.
  - apply String.eqb_eq in E. subst k'. destruct Hfresh. left. reflexivity.
  - rewrite IH; [reflexivity|]. intros Hin. apply Hfresh. right. exact Hin.
Qed.

Lemma NoDup_keys_setitem (d : @dict_items V) (k : string) (v : V) :
  NoDup (keys d) -> NoDup (keys (setitem d k v)).
Proof.
  induction d as [|[k' v'] rest IH]; simpl; intros Hnd.
  - constructor; [intros [] | constructor].
  - inversion Hnd as [|k0 ks Hnotin Hrest]. subst k0 ks.
    destruct (String.eqb k' k) eqn:E; simpl.
    + constructor; assumption.
    + constructor.
      * fold (keys (setitem rest k v)). rewrite In_keys_setitem.
        intros [Heq | Hin]; [|exact (Hnotin Hin)].
        subst k'. rewrite String.eqb_refl in E. discriminate.
      * apply IH. exact Hrest.
Qed.

Lemma get_setitem (d : @dict_items V) (k q : string) (v : V) :
  get (setitem d k v) q = if String.eqb k q then Some v else get d q.
Proof.
  induction d as [|[k' v'] rest IH]; simpl.
  - reflexivity.
  - destruct (String.eqb k' k) eqn:E; simpl.
    + apply String.eqb_eq in E. subst k'.
      destruct (String.eqb k q); reflexivity.
    + destruct (String.eqb k' q) eqn:Eq'.
      * apply String.eqb_eq in Eq'. subst q. rewrite String.eqb_sym, E.
        reflexivity.
      * exact IH.
Qed.

Lemma NoDup_keys_fold (pairs : list (string * V)) (d : @dict_items V) :
  NoDup (keys d) -> NoDup (keys (fold_left step pairs d)).
Proof.
  revert d. induction pairs as [|p pairs IH]; intros d Hnd; simpl.
  - exact Hnd.
  - apply IH. apply NoDup_keys_setitem. exact Hnd.
Qed.

Lemma In_keys_fold (pairs : list (string * V)) (d : @dict_items V)
    (q : string) :
  In q (keys (fold_left step pairs d)) <->
  In q (keys d) \/ In q (map fst pairs).
Proof.
  revert d. induction pairs as [|p pairs IH]; intros d; simpl.
  - split; [auto | intros [H | []]; exact H].
  - rewrite IH, In_keys_setitem.
    split; intros H; decompose [or] H; auto.
Qed.

Lemma get_fold (pairs : list (string * V)) (d : @dict_items V)
    (q : string) :
  get (fold_left step pairs d) q =
  match find (fun p => String.eqb (fst p) q) (rev pairs) with
  | Some p => Some (snd p)
  | None => get d q
  end.
Proof.
  revert d. induction pairs as [|p pairs IH]; intros d; simpl.
  - reflexivity.
  - rewrite IH, FontsFacts.find_app.
    destruct (find (fun p0 => String.eqb (fst p0) q) (rev pairs));
      [reflexivity|].
    simpl. rewrite get_setitem.
    destruct (String.eqb (fst p) q); reflexivity.
Qed.

Lemma fold_fresh (pairs : list (string * V)) (d : @dict_items V) :
  NoDup (keys d ++ map fst pairs) ->
  fold_left step pairs d = (d ++ pairs)%list.
Proof.
  revert d. induction pairs as [|[k v] pairs IH]; intros d Hnd; simpl.
  - rewrite app_nil_r. reflexivity.
  - simpl in Hnd.
    assert (Hfresh : ~ In k (keys d)).
    { apply NoDup_remove_2 in Hnd. intros Hin. apply Hnd.
      apply in_or_app. left. exact Hin. }
    rewrite (setitem_fresh d k v Hfresh), IH.
    + rewrite <- app_assoc. reflexivity.
    + unfold keys. rewrite map_app. simpl. rewrite <- app_assoc. simpl.
      exact Hnd.
Qed.

End Dict.

(** X14: the legend holds every label once: the keys of [by_label] are
    pairwise distinct and are exactly the labels that were zipped with a
    handle. *)
Theorem by_label_keys_unique {V : Type} (labels : list string)
    (handles : list V) :
  NoDup (keys (by_label labels handles)) /\
  (forall l, In l (keys (by_label labels handles)) <->
             In l (map fst (combine labels handles))).
Proof.
  unfold by_label, dict. split.
  - apply NoDup_keys_fold. constructor.
  - intros l. rewrite In_keys_fold. simpl. split; [intros [[] | H] |]; auto.
Qed.

(** X15: a label used several times shows the handle of its last use:
    looking a label up in [by_label] gives the handle of the last pair
    carrying that label, and nothing for a label that was not zipped. *)
Theorem by_label_keeps_last_handle {V : Type} (labels : list string)
    (handles : list V) (l : string) :
  get (by_label labels handles) l
  = option_map snd
      (find (fun p => String.eqb (fst p) l) (rev (combine labels handles))).
Proof.
  unfold by_label, dict. rewrite get_fold.
  destruct (find _ _); reflexivity.
Qed.

(** X16: with pairwise distinct labels and as many handles, as in the
    script, the de-duplication changes nothing: keys and values are the
    labels and the handles, in their order. *)
Theorem by_label_distinct_unchanged {V : Type} (labels : list string)
    (handles : list V) :
  NoDup labels ->
  List.length labels = List.length handles ->
  keys (by_label labels handles) = labels /\
  values (by_label labels handles) = handles.
Proof.
  intros Hnd Hlen. unfold by_label, dict.
  assert (Hfst : map fst (combine labels handles) = labels).
  { clear Hnd. revert handles Hlen.
    induction labels as [|l labels IH]; intros handles Hlen;
      destruct handles as [|h handles]; try discriminate; simpl;
      [reflexivity|].
    rewrite IH; [reflexivity|]. simpl in Hlen. lia. }
  assert (Hsnd : map snd (combine labels handles) = handles).
  { clear Hnd Hfst. revert handles Hlen.
    induction labels as [|l labels IH]; intros handles Hlen;
      destruct handles as [|h handles]; try discriminate; simpl;
      [reflexivity|].
    rewrite IH; [reflexivity|]. simpl in Hlen. lia. }
  rewrite fold_fresh.
  - simpl. unfold keys, values. auto.
  - simpl. rewrite Hfst. exact Hnd.
Qed.

Lemma by_label_distinct_unchanged_witness :
  keys (by_label ["U_in"; "U_out"; "U_xor"]%string [1; 2; 3])
  = ["U_in"; "U_out"; "U_xor"]%string /\
  values (by_label ["U_in"; "U_out"; "U_xor"]%string [1; 2; 3]) = [1; 2; 3].
Proof.
  apply (by_label_distinct_unchanged
           ["U_in"; "U_out"; "U_xor"]%string [1; 2; 3]).
  - repeat (apply NoDup_cons;
            [simpl; intros H;
             repeat (destruct H as [H | H]; [discriminate|]); exact H|]).
    apply NoDup_nil.
  - reflexivity.
Defined.

End LegendFacts.

(** ** Zero crossing: when the loop raises *)

Module ZeroCrossErrors.
Import ZeroCross ZeroCrossFacts ZeroCrossMore.

Section Generic.
Context {A : Type} `{Scalar A}.

Lemma candidates_loop_None (t voltage : list A) (idxs : list nat)
    (acc : list A) :
  candidates_loop t voltage idxs acc = None <->
  exists idx, In idx idxs /\ t_zero t voltage idx = None.
Proof.
  revert acc. induction idxs as [|idx rest IH]; intros acc; simpl.
  - split; [discriminate | intros [idx [[] _]]].
  - destruct (t_zero t voltage idx) as [c|] eqn:E; simpl.
    + rewrite IH. split.
      * intros [i [Hi Hz]]. exists i. auto.
      * intros [i [[Heq | Hi] Hz]]; [subst; congruence|]. exists i. auto.
    + split; [|reflexivity]. intros _. exists idx. auto.
Qed.

Lemma t_zero_None (t voltage : list A) (idx : nat) :
  In idx (sign_change_indices voltage) ->
  (t_zero t voltage idx = None <-> List.length t <= idx + 1).
Proof.
  intros Hin. apply In_sign_change_indices in Hin.
  destruct Hin as [v1 [v2 [Hv1 [Hv2 _]]]].
  unfold t_zero. rewrite Hv1, Hv2. simpl bind.
  destruct (nth_error t idx) as [t1|] eqn:Ht1; simpl.
  - destruct (nth_error t (idx + 1)) as [t2|] eqn:Ht2; simpl.
    + split; [discriminate|]. intros Hle.
      assert (Hlt : idx + 1 < List.length t).
      { apply nth_error_Some. rewrite Ht2. discriminate. }
      lia.
    + apply nth_error_None in Ht2. split; [intros _; exact Ht2 | reflexivity].
  - apply nth_error_None in Ht1. split; [intros _; lia | reflexivity].
Qed.

Lemma actual_crossing_of_candidates (t voltage : list A) (cross : A)
    (cands : list A) :
  candidates t voltage = Some cands ->
  exists c, actual_crossing t voltage cross = Some c.
Proof.
  intros Hc. unfold actual_crossing. unfold candidates in Hc.
  destruct (sign_change_indices voltage) as [|idx rest] eqn:E.
  - simpl. eauto.
  - change (0 <? List.length (idx :: rest)) with true. cbv iota.
    rewrite Hc. simpl bind.
    assert (Hd : distances cands cross <> []).
    { apply candidates_loop_Forall2 in Hc. destruct Hc as [cs [Hcs HF]].
      simpl in Hcs. subst cs. inversion HF. subst. discriminate. }
    destruct (argmin_bound _ Hd) as [k [Hk Hbound]].
    rewrite Hk. simpl bind.
    unfold distances in Hbound. rewrite length_map in Hbound.
    destruct (nth_error cands k) as [c|] eqn:Ec; [eauto|].
    apply nth_error_None in Ec. lia.
Qed.

End Generic.

(** X17: the only failure of the refinement is a time axis that is too
    short: it raises (an [IndexError]) exactly when some detected index
    has no right neighbour in [t]. *)
Theorem refinement_raises_iff_t_short {A : Type} `{Scalar A}
    (t voltage : list A) (cross : A) :
  actual_crossing t voltage cross = None <->
  exists idx, In idx (sign_change_indices voltage) /\
              List.length t <= idx + 1.
Proof.
  split.
  - intros Hnone.
    destruct (candidates t voltage) as [cands|] eqn:Ec.
    + destruct (actual_crossing_of_candidates t voltage cross cands Ec)
        as [c Hc].
      congruence.
    + unfold candidates in Ec. apply candidates_loop_None in Ec.
      destruct Ec as [idx [Hin Hz]]. exists idx. split; [exact Hin|].
      apply (t_zero_None t voltage idx Hin). exact Hz.
  - intros [idx [Hin Hshort]].
    assert (Hc : candidates_loop t voltage (sign_change_indices voltage) []
                 = None).
    { apply candidates_loop_None. exists idx. split; [exact Hin|].
      apply (t_zero_None t voltage idx Hin). exact Hshort. }
    unfold actual_crossing.
    destruct (sign_change_indices voltage) as [|i rest]; [destruct Hin|].
    change (0 <? List.length (i :: rest)) with true. cbv iota.
    rewrite Hc. reflexivity.
Qed.

End ZeroCrossErrors.

(** ** Replay of the lookup table *)

Module ReplayFacts.
Import Replay.

Section Table.
Context {X : Type}.

Lemma length_tile (a : list X) (reps : nat) :
  List.length (tile a reps) = reps * List.length a.
Proof.
  induction reps as [|reps IH]; simpl; [reflexivity|].
  rewrite length_app, IH. reflexivity.
Qed.

Lemma nth_error_tile (a : list X) (reps k : nat) :
  k < reps * List.length a ->
  nth_error (tile a reps) k = nth_error a (k mod List.length a).
Proof.
  revert k. induction reps as [|reps IH]; intros k Hk; simpl in *; [lia|].
  destruct (Nat.lt_ge_cases k (List.length a)) as [Hlt | Hge].
  - rewrite nth_error_app1 by exact Hlt.
    rewrite Nat.mod_small by exact Hlt. reflexivity.
  - rewrite nth_error_app2 by exact Hge. rewrite IH by lia.
    f_equal.
    replace k with (k - List.length a + 1 * List.length a) at 2 by lia.
    rewrite Nat.Div0.mod_add. reflexivity.
Qed.

Lemma length_removelast_pred (a : list X) :
  List.length (removelast a) = List.length a - 1.
Proof.
  induction a as [|y a IH]; [reflexivity|].
  destruct a as [|z a]; [reflexivity|].
  change (removelast (y :: z :: a)) with (y :: removelast (z :: a)).
  simpl List.length in *. rewrite IH. lia.
Qed.

Lemma last_item_Some (a : list X) :
  a <> [] -> exists x, last_item a = Some x /\
                       nth_error a (List.length a - 1) = Some x.
Proof.
  intros Hne. unfold last_item. destruct a as [|y rest]; [congruence|].
  destruct (nth_error (y :: rest) (List.length (y :: rest) - 1)) as [x|] eqn:E.
  - exists x. auto.
  - apply nth_error_None in E. simpl in E. lia.
Qed.

End Table.

(** X18: the replayed table.  An empty table raises; a table of [N]
    entries shown for [n] periods gives [n * (N - 1) + 1] samples, where
    sample [k] is table entry [k mod (N - 1)] and the closing sample is
    the last table entry; the addresses count them from 0. *)
Theorem plot_voltages_periodic {X : Type} (voltage_values : list X)
    (n : nat) :
  (voltage_values = [] -> plot_voltages voltage_values n = None) /\
  (voltage_values <> [] ->
   exists pv,
     plot_voltages voltage_values n = Some pv /\
     List.length pv = n * (List.length voltage_values - 1) + 1 /\
     (forall k, k < n * (List.length voltage_values - 1) ->
        nth_error pv k
        = nth_error voltage_values (k mod (List.length voltage_values - 1))) /\
     nth_error pv (n * (List.length voltage_values - 1))
     = nth_error voltage_values (List.length voltage_values - 1) /\
     plot_addresses pv = seq 0 (n * (List.length voltage_values - 1) + 1)).
Proof.
  split.
  - intros Hnil. subst. reflexivity.
  - intros Hne. unfold plot_voltages.
    destruct (last_item_Some voltage_values Hne) as [x [Hlast Hx]].
    rewrite Hlast. simpl bind. eexists. split; [reflexivity|].
    assert (Hrl : List.length (removelast voltage_values)
                  = List.length voltage_values - 1).
    { apply length_removelast_pred. }
    assert (Hlen : List.length (tile (removelast voltage_values) n ++ [x])
                   = n * (List.length voltage_values - 1) + 1).
    { rewrite length_app, length_tile, Hrl. reflexivity. }
    split; [exact Hlen|]. split; [|split].
    + intros k Hk.
      rewrite nth_error_app1 by (rewrite length_tile, Hrl; exact Hk).
      rewrite nth_error_tile by (rewrite Hrl; exact Hk).
      rewrite Hrl, nth_error_removelast.
      assert (Hm : k mod (List.length voltage_values - 1)
                   < List.length voltage_values - 1).
      { apply Nat.mod_upper_bound. lia. }
      assert (Hb : (S (k mod (List.length voltage_values - 1))
                    <? List.length voltage_values) = true).
      { apply Nat.ltb_lt. lia. }
      rewrite Hb. reflexivity.
    + rewrite nth_error_app2 by (rewrite length_tile, Hrl; lia).
      rewrite length_tile, Hrl, Nat.sub_diag. simpl. symmetry. exact Hx.
    + unfold plot_addresses. rewrite Hlen. reflexivity.
Qed.

End ReplayFacts.

(** ** Font resolver: what is returned and what the section leaves *)

Module FontsMore.
Import Fonts FontsFacts.

#[local] Open Scope string_scope.

(** X19: whatever [found_file] returns is a file of an existing search
    directory whose name ends in [.otf] or [.ttf], holds the target and
    holds neither "bold" nor "italic". *)
Theorem found_file_sound (target : string)
    (search_dirs : list Makec.directory) (p : string) :
  Makec.found_file target search_dirs = Returned (Some p) ->
  exists d,
    In d search_dirs /\ Makec.dir_exists d = Returned true /\
    In p (Makec.entries d) /\
    glob_ot_tf (basename p) = true /\
    Makec.name_matches target p = true /\
    Makec.regular p = true.
Proof.
  intros Hfound. apply found_file_returned in Hfound. symmetry in Hfound.
  unfold Makec.first_wanted in Hfound. apply find_some in Hfound.
  destruct Hfound as [Hin Hw].
  apply In_visited in Hin. destruct Hin as [d [Hd [Hex Hp]]].
  unfold Makec.rglob in Hp. apply filter_In in Hp. destruct Hp as [Hp Hglob].
  unfold Makec.wanted in Hw. apply andb_true_iff in Hw. destruct Hw.
  exists d. auto 7.
Qed.

Lemma found_file_sound_witness :
  exists d,
    In d [ {| Makec.dir_exists := Returned false;
              Makec.entries := [ "/home/u/.fonts/IoskeleyMono_Regular.ttf" ];
              Makec.walk_error := None |};
           {| Makec.dir_exists := Returned true;
              Makec.entries :=
                [ "/usr/share/fonts/io/IoskeleyMono_Regular.woff";
                  "/usr/share/fonts/io/IoskeleyMono_Regular.otf" ];
              Makec.walk_error := None |} ] /\
    Makec.dir_exists d = Returned true /\
    In "/usr/share/fonts/io/IoskeleyMono_Regular.otf" (Makec.entries d) /\
    glob_ot_tf (basename "/usr/share/fonts/io/IoskeleyMono_Regular.otf")
    = true /\
    Makec.name_matches Makec.target_font_str
      "/usr/share/fonts/io/IoskeleyMono_Regular.otf" = true /\
    Makec.regular "/usr/share/fonts/io/IoskeleyMono_Regular.otf" = true.
Proof.
  apply (found_file_sound Makec.target_font_str).
  vm_compute. reflexivity.
Defined.

(** X20: what the font section of [makec.py] leaves behind.  The
    directory walk either raises or returns.  When it raises, the
    section ends with that exception, the search line printed and the
    font family untouched.  When it returns, the section returns, keeps
    what was printed before and prints the search line next; the font
    family is then either the internal name of the found file, when both
    registering it and reading its name succeeded (and then one success
    line follows and no warning), or ["monospace"], with the fallback
    warning as the last line. *)
Theorem makec_font_section_outcome (fm : font_manager)
    (search_dirs : list Makec.directory) (st : process) :
  (exists e,
      Makec.found_file Makec.target_font_str search_dirs = Raised e /\
      Makec.font_section fm search_dirs st
      = (Raised e,
         {| font_family := font_family st;
            stdout := (stdout st ++ [Makec.searching])%list |})) \/
  (exists r st' more,
      Makec.found_file Makec.target_font_str search_dirs = Returned r /\
      Makec.font_section fm search_dirs st = (Returned tt, st') /\
      stdout st' = (stdout st ++ Makec.searching :: more)%list /\
      ((exists f name,
           r = Some f /\
           addfont fm f = Returned tt /\
           get_name fm f = Returned name /\
           font_family st' = name /\
           more = [ "SUCCESS: Loaded '" ++ name ++ "' from " ++ f ]) \/
       (font_family st' = "monospace" /\
        exists before, more = (before ++ [Makec.fallback_warning])%list /\
          ~ (exists f name,
                r = Some f /\
                addfont fm f = Returned tt /\
                get_name fm f = Returned name)))).
Proof.
  destruct (Makec.found_file Makec.target_font_str search_dirs) as [r|e]
    eqn:Efound.
  2:{ left. exists e. split; [reflexivity|].
      apply font_section_walk_raises. exact Efound. }
  right. exists r.
  unfold Makec.font_section, seq, print, call, Makec.font_loaded.
  rewrite Efound. destruct r as [f|].
  - unfold try_except, Makec.load, seq, call, set_font_family, print, ret.
    destruct (addfont fm f) as [[]|e] eqn:Eadd.
    + destruct (get_name fm f) as [name|e] eqn:Ename; simpl.
      * eexists. eexists. split; [reflexivity|]. split; [reflexivity|]. split.
        -- rewrite <- app_assoc. reflexivity.
        -- left. exists f, name. auto.
      * eexists. eexists. split; [reflexivity|]. split; [reflexivity|]. split.
        -- rewrite <- !app_assoc. reflexivity.
        -- right. split; [reflexivity|].
           exists [ "Error loading font file: " ++ str e ].
           split; [reflexivity|].
           intros [f' [name [Hf [_ Hname]]]]. congruence.
    + simpl. eexists. eexists. split; [reflexivity|]. split; [reflexivity|].
      split.
      * rewrite <- !app_assoc. reflexivity.
      * right. split; [reflexivity|].
        exists [ "Error loading font file: " ++ str e ].
        split; [reflexivity|].
        intros [f' [name [Hf [Hadd _]]]]. congruence.
  - simpl. eexists. eexists. split; [reflexivity|]. split; [reflexivity|].
    split.
    + rewrite <- !app_assoc. reflexivity.
    + right. split; [reflexivity|]. exists []. split; [reflexivity|].
      intros [f' [name [Hf _]]]. discriminate.
Qed.

(** X21: what the font section of [peak_detect_chart.py] leaves behind.
    It always returns and keeps what was printed before.  A font the
    manager already knows is used as it is, without any search of the
    system fonts; otherwise the family is the internal name of the
    candidate that was found, registered and read, or ["sans-serif"]. *)
Theorem peak_font_section_outcome (fm : font_manager) (font_name : string)
    (st : process) :
  exists st' more,
    PeakChart.font_section fm font_name st = (Returned tt, st') /\
    stdout st' = (stdout st ++ more)%list /\
    (existsb (String.eqb (lower font_name)) (map lower (ttflist fm)) = true ->
     font_family st' = font_name /\
     more = [ "Using cached font: " ++ font_name ]) /\
    (existsb (String.eqb (lower font_name)) (map lower (ttflist fm)) = false ->
     font_family st' = "sans-serif" \/
     exists fonts p name,
       findSystemFonts fm = Returned fonts /\
       PeakChart.found_path
         (PeakChart.collect (PeakChart.clean_name font_name) fonts) = Some p /\
       addfont fm p = Returned tt /\
       get_name fm p = Returned name /\
       font_family st' = name).
Proof.
  unfold PeakChart.font_section, try_except, PeakChart.resolve.
  destruct (existsb (String.eqb (lower font_name)) (map lower (ttflist fm))).
  - unfold seq, set_font_family, print. simpl.
    eexists. eexists. split; [reflexivity|]. split; [reflexivity|].
    split; [auto | discriminate].
  - unfold seq, print, call, set_font_family, ret.
    destruct (findSystemFonts fm) as [fonts|e] eqn:Efonts.
    + destruct (PeakChart.found_path
                  (PeakChart.collect (PeakChart.clean_name font_name) fonts))
        as [p|] eqn:Efound.
      * destruct (PeakChart.truthy (Some p)) eqn:Etruthy.
        -- destruct (addfont fm p) as [[]|e] eqn:Eadd.
           ++ destruct (get_name fm p) as [name|e] eqn:Ename; simpl.
              ** eexists. eexists. split; [reflexivity|]. split.
                 --- rewrite <- app_assoc. reflexivity.
                 --- split; [discriminate|]. intros _. right.
                     exists fonts, p, name. auto.
              ** eexists. eexists. split; [reflexivity|]. split.
                 --- rewrite <- app_assoc. reflexivity.
                 --- split; [discriminate|]. intros _. left. reflexivity.
           ++ simpl. eexists. eexists. split; [reflexivity|]. split.
              ** rewrite <- app_assoc. reflexivity.
              ** split; [discriminate|]. intros _. left. reflexivity.
        -- simpl. eexists. eexists. split; [reflexivity|]. split.
           ++ rewrite <- app_assoc. reflexivity.
           ++ split; [discriminate|]. intros _. left. reflexivity.
      * simpl. eexists. eexists. split; [reflexivity|]. split.
        -- rewrite <- app_assoc. reflexivity.
        -- split; [discriminate|]. intros _. left. reflexivity.
    + simpl. eexists. eexists. split; [reflexivity|]. split.
      * rewrite <- app_assoc. reflexivity.
      * split; [discriminate|]. intros _. left. reflexivity.
Qed.

(** X22: whatever [found_path] returns is one of the system fonts, and
    its file name, lower-cased and without "-" and "_", holds the font
    name, lower-cased and without spaces. *)
Theorem found_path_sound (font_name : string) (system_fonts : list string)
    (p : string) :
  PeakChart.found_path
    (PeakChart.collect (PeakChart.clean_name font_name) system_fonts)
  = Some p ->
  In p system_fonts /\
  contains (remove_char " " (lower font_name))
           (remove_char "_" (remove_char "-" (lower (basename p)))) = true.
Proof.
  intros Hfound. rewrite found_path_two_passes in Hfound.
  assert (Hin : In p (PeakChart.collect (PeakChart.clean_name font_name)
                        system_fonts)).
  { destruct (PeakChart.truthy (find PeakChart.clean _)).
    - apply find_some in Hfound. exact (proj1 Hfound).
    - destruct (PeakChart.collect _ _) as [|q rest]; [discriminate|].
      simpl in Hfound. injection Hfound as Hfound. subst. left. reflexivity. }
  unfold PeakChart.collect in Hin. apply filter_In in Hin.
  exact Hin.
Qed.

Lemma found_path_sound_witness :
  In "/usr/share/fonts/io/Ioskeley_Mono-Bold.ttf"
     [ "/usr/share/fonts/dejavu/DejaVuSans.ttf";
       "/usr/share/fonts/io/Ioskeley_Mono-Bold.ttf" ] /\
  contains (remove_char " " (lower "Ioskeley Mono"))
           (remove_char "_"
              (remove_char "-"
                 (lower (basename
                           "/usr/share/fonts/io/Ioskeley_Mono-Bold.ttf"))))
  = true.
Proof.
  apply (found_path_sound "Ioskeley Mono"
           [ "/usr/share/fonts/dejavu/DejaVuSans.ttf";
             "/usr/share/fonts/io/Ioskeley_Mono-Bold.ttf" ]).
  vm_compute. reflexivity.
Defined.

End FontsMore.

(** ** Zero crossing of a rising signal *)

Module ZeroCrossRising.
Import ZeroCross ZeroCrossFacts Binary64 Binary64Facts.

Lemma rising_from_neighbours (voltage : list float) :
  (forall i a b, nth_error voltage i = Some a ->
                 nth_error voltage (i + 1) = Some b -> leb a b = true) ->
  forall i j a b, i <= j -> not_nan a ->
    nth_error voltage i = Some a -> nth_error voltage j = Some b ->
    leb a b = true.
Proof.
  intros Hstep i j a b Hij Ha Hi. revert b.
  induction Hij as [|j Hij IH]; intros b Hb.
  - rewrite Hi in Hb. injection Hb as Hb. subst b. apply leb_refl. exact Ha.
  - destruct (nth_error voltage j) as [m|] eqn:Em.
    + specialize (IH m eq_refl).
      apply (leb_trans _ _ _ IH). apply (Hstep j); [exact Em|].
      rewrite Nat.add_1_r. exact Hb.
    + apply nth_error_None in Em.
      assert (Hj : S j < List.length voltage).
      { apply nth_error_Some. rewrite Hb. discriminate. }
      lia.
Qed.

(** X23: a signal that never falls crosses zero once: when every
    binary64 sample is at most its right neighbour, at most one index is
    detected. *)
Theorem rising_signal_single_crossing (voltage : list float) (i j : nat) :
  (forall k a b, nth_error voltage k = Some a ->
                 nth_error voltage (k + 1) = Some b -> leb a b = true) ->
  In i (sign_change_indices voltage) ->
  In j (sign_change_indices voltage) ->
  i = j.
Proof.
  intros Hstep Hi Hj.
  assert (Hone : forall p q, In p (sign_change_indices voltage) ->
                   In q (sign_change_indices voltage) -> ~ p < q).
  { intros p q Hp Hq Hlt.
    apply In_sign_change_indices in Hp.
    destruct Hp as [_ [v2 [_ [Hv2 [_ Hge]]]]].
    apply In_sign_change_indices in Hq.
    destruct Hq as [w1 [_ [Hw1 [_ [Hneg _]]]]].
    unfold geb in Hge.
    assert (Hv2n : not_nan v2).
    { apply leb_key in Hge. exact (proj1 (proj2 Hge)). }
    assert (Hle : leb v2 w1 = true).
    { apply (rising_from_neighbours voltage Hstep (p + 1) q);
        try assumption. lia. }
    pose proof (leb_trans _ _ _ Hge Hle) as Hz.
    apply ltb_not_leb in Hneg. congruence. }
  destruct (Nat.lt_trichotomy i j) as [Hlt | [Heq | Hgt]].
  - destruct (Hone i j Hi Hj Hlt).
  - exact Heq.
  - destruct (Hone j i Hj Hi Hgt).
Qed.

Lemma rising_signal_single_crossing_witness :
  ~ In 3 (sign_change_indices [-2; -1; 0; 0; 1.5]%float).
Proof.
  intros Hj. cut (1 = 3); [discriminate|].
  apply (rising_signal_single_crossing [-2; -1; 0; 0; 1.5]%float 1 3).
  - intros k a b Ha Hb.
    destruct k as [|[|[|[|[|k]]]]]; simpl in Ha, Hb.
    + injection Ha as Ha. injection Hb as Hb. subst. reflexivity.
    + injection Ha as Ha. injection Hb as Hb. subst. reflexivity.
    + injection Ha as Ha. injection Hb as Hb. subst. reflexivity.
    + injection Ha as Ha. injection Hb as Hb. subst. reflexivity.
    + discriminate.
    + destruct k; discriminate.
  - vm_compute. left. reflexivity.
  - exact Hj.
Defined.

End ZeroCrossRising.

(** * The numeric claims, as binary64 computes *)

(** ** Exact values of binary64 samples *)

Module ExactFacts.
Import Binary64 Binary64Facts.

Lemma digits2_pos_bounds (m : positive) :
  (2 ^ (Z.pos (digits2_pos m) - 1) <= Z.pos m < 2 ^ Z.pos (digits2_pos m))%Z.
Proof.
  induction m as [m IH | m IH |]; simpl digits2_pos.
  - rewrite Pos2Z.inj_succ.
    replace (Z.succ (Z.pos (digits2_pos m)) - 1)%Z
      with (Z.succ (Z.pos (digits2_pos m) - 1))%Z by lia.
    rewrite !Z.pow_succ_r by lia. lia.
  - rewrite Pos2Z.inj_succ.
    replace (Z.succ (Z.pos (digits2_pos m)) - 1)%Z
      with (Z.succ (Z.pos (digits2_pos m) - 1))%Z by lia.
    rewrite !Z.pow_succ_r by lia. lia.
  - simpl. lia.
Qed.

(** What it means for a finite value to be a binary64 number: at most
    53 digits, an exponent not below -1074, and 53 digits above that
    exponent. *)
Lemma valid_finite (s : bool) (m : positive) (e : Z) :
  valid_binary (S754_finite s m e) = true ->
  (Z.pos m < 2 ^ 53)%Z /\ (-1074 <= e)%Z /\
  ((-1074 < e)%Z -> (2 ^ 52 <= Z.pos m)%Z).
Proof.
  unfold SpecFloat.valid_binary, bounded, canonical_mantissa, fexp.
  intros Hv. apply andb_true_iff in Hv. destruct Hv as [Hc _].
  apply Z.eqb_eq in Hc.
  change (SpecFloat.emin prec emax) with (-1074)%Z in Hc.
  change prec with 53%Z in Hc.
  pose proof (digits2_pos_bounds m) as [Hlo Hhi].
  assert (Hd : (Z.pos (digits2_pos m) <= 53)%Z) by lia.
  split.
  - eapply Z.lt_le_trans; [exact Hhi|].
    apply Z.pow_le_mono_r; lia.
  - split; [lia|]. intros He.
    assert (Hd' : Z.pos (digits2_pos m) = 53%Z) by lia.
    rewrite Hd' in Hlo. exact Hlo.
Qed.

(** Binary64 numbers of one sign are ordered as their exponents, then
    their mantissas. *)
Lemma magnitude_lt (m1 m2 : positive) (e1 e2 : Z) :
  valid_binary (S754_finite false m1 e1) = true ->
  valid_binary (S754_finite false m2 e2) = true ->
  (e1 < e2)%Z \/ (e1 = e2 /\ (Z.pos m1 < Z.pos m2)%Z) ->
  (inject_Z (Z.pos m1) * Qpower 2 e1 < inject_Z (Z.pos m2) * Qpower 2 e2)%Q.
Proof.
  intros H1 H2 Hlt.
  apply (valid_finite false) in H1. apply (valid_finite false) in H2.
  destruct H1 as [Hm1 [He1 _]]. destruct H2 as [_ [_ Hm2]].
  assert (Hp1 : (0 < Qpower 2 e1)%Q) by (apply Qpower_0_lt; reflexivity).
  destruct Hlt as [He | [He Hm]].
  - specialize (Hm2 ltac:(lia)).
    assert (Hstep : (Qpower 2 (e1 + 1) == Qpower 2 e1 * 2)%Q).
    { rewrite Qpower_plus by discriminate. reflexivity. }
    assert (Hmono : (Qpower 2 (e1 + 1) <= Qpower 2 e2)%Q).
    { apply Qpower_le_compat_l; [lia | discriminate]. }
    assert (Ha : (inject_Z (Z.pos m1) < inject_Z (2 ^ 53))%Q).
    { rewrite <- Zlt_Qlt. exact Hm1. }
    assert (Hb : (inject_Z (2 ^ 52) <= inject_Z (Z.pos m2))%Q).
    { rewrite <- Zle_Qle. exact Hm2. }
    assert (H53 : (inject_Z (2 ^ 53) == 2 * inject_Z (2 ^ 52))%Q)
      by reflexivity.
    assert (H52 : (0 < inject_Z (2 ^ 52))%Q) by reflexivity.
    set (a := inject_Z (Z.pos m1)) in *. set (b := inject_Z (Z.pos m2)) in *.
    set (p1 := Qpower 2 e1) in *. set (p2 := Qpower 2 e2) in *.
    set (p1' := Qpower 2 (e1 + 1)) in *.
    set (c53 := inject_Z (2 ^ 53)) in *. set (c52 := inject_Z (2 ^ 52)) in *.
    nra.
  - subst e2. apply Qmult_lt_compat_r; [exact Hp1|].
    rewrite <- Zlt_Qlt. exact Hm.
Qed.

Lemma lex3_same_class (c a2 a3 b2 b3 : Z) :
  lex3 (c, a2, a3) (c, b2, b3) = Lt ->
  (a2 < b2)%Z \/ (a2 = b2 /\ (a3 < b3)%Z).
Proof.
  unfold lex3. rewrite Z.compare_refl.
  destruct (Z.compare_spec a2 b2) as [Heq | Hlt | Hgt]; try discriminate.
  - intros H. right. split; [exact Heq|]. apply Z.compare_lt_iff. exact H.
  - intros _. left. exact Hlt.
Qed.

(** The order of the keys is the order of the exact values. *)
Lemma key_lt_exact (a b : spec_float) (qa qb : Q) :
  valid_binary a = true -> valid_binary b = true ->
  exact_value a = Some qa -> exact_value b = Some qb ->
  lex3 (key a) (key b) = Lt -> (qa < qb)%Q.
Proof.
  intros Va Vb Ha Hb Hlt.
  destruct a as [sa|sa| |sa ma ea]; try discriminate;
    destruct b as [sb|sb| |sb mb eb]; try discriminate;
    simpl in Ha, Hb; injection Ha as Ha; injection Hb as Hb; subst qa qb.
  - destruct sb; [discriminate|].
    assert (Hp : (0 < Qpower 2 eb)%Q) by (apply Qpower_0_lt; reflexivity).
    assert (Hn : (0 < inject_Z (Z.pos mb))%Q) by reflexivity.
    nra.
  - destruct sa; [|discriminate].
    assert (Hp : (0 < Qpower 2 ea)%Q) by (apply Qpower_0_lt; reflexivity).
    assert (Hn : (inject_Z (Z.neg ma) < 0)%Q) by reflexivity.
    nra.
  - assert (Hpa : (0 < Qpower 2 ea)%Q) by (apply Qpower_0_lt; reflexivity).
    assert (Hpb : (0 < Qpower 2 eb)%Q) by (apply Qpower_0_lt; reflexivity).
    assert (Hna : (0 < inject_Z (Z.pos ma))%Q) by reflexivity.
    assert (Hnb : (0 < inject_Z (Z.pos mb))%Q) by reflexivity.
    destruct sa, sb; simpl key in Hlt; try discriminate.
    + apply lex3_same_class in Hlt.
      assert (Hm : (inject_Z (Z.pos mb) * Qpower 2 eb
                    < inject_Z (Z.pos ma) * Qpower 2 ea)%Q).
      { apply magnitude_lt; [exact Vb | exact Va |].
        destruct Hlt as [He | [He Hm]]; [left; lia | right; split; lia]. }
      change (inject_Z (Z.neg ma)) with (- inject_Z (Z.pos ma))%Q.
      change (inject_Z (Z.neg mb)) with (- inject_Z (Z.pos mb))%Q.
      lra.
    + change (inject_Z (Z.neg ma)) with (- inject_Z (Z.pos ma))%Q. nra.
    + apply lex3_same_class in Hlt.
      apply magnitude_lt; [exact Va | exact Vb | exact Hlt].
Qed.

Lemma key_eq_exact (a b : spec_float) (qa qb : Q) :
  exact_value a = Some qa -> exact_value b = Some qb ->
  lex3 (key a) (key b) = Eq -> (qa == qb)%Q.
Proof.
  intros Ha Hb Heq.
  destruct a as [sa|sa| |sa ma ea]; try discriminate;
    destruct b as [sb|sb| |sb mb eb]; try discriminate;
    simpl in Ha, Hb; injection Ha as Ha; injection Hb as Hb; subst qa qb.
  - reflexivity.
  - destruct sb; discriminate.
  - destruct sa; discriminate.
  - destruct sa, sb; simpl key in Heq; try discriminate;
      unfold lex3 in Heq;
      destruct (Z.compare_spec (-1) (-1)); try discriminate;
      destruct (Z.compare_spec 1 1); try discriminate.
    + destruct (Z.compare_spec (- ea) (- eb)); try discriminate.
      apply Z.compare_eq in Heq. injection Heq as Heq.
      assert (ea = eb) by lia. subst. reflexivity.
    + destruct (Z.compare_spec ea eb); try discriminate.
      apply Z.compare_eq in Heq. injection Heq as Heq.
      subst. reflexivity.
Qed.

(** A value with an exact value is not a NaN. *)
Lemma exact_not_nan (x : float) (q : Q) : exact x = Some q -> not_nan x.
Proof.
  intros Hq. apply not_nan_spec. intros Hnan. unfold exact in Hq.
  rewrite Hnan in Hq. discriminate.
Qed.

(** On finite values the comparisons of binary64 are those of the exact
    values. *)
Lemma ltb_exact (x y : float) (qx qy : Q) :
  exact x = Some qx -> exact y = Some qy ->
  ltb x y = true -> (qx < qy)%Q.
Proof.
  intros Hx Hy Hlt. apply ltb_key in Hlt. destruct Hlt as [_ [_ Hlt]].
  exact (key_lt_exact _ _ qx qy (Prim2SF_valid x) (Prim2SF_valid y)
           Hx Hy Hlt).
Qed.

Lemma leb_exact (x y : float) (qx qy : Q) :
  exact x = Some qx -> exact y = Some qy ->
  leb x y = true -> (qx <= qy)%Q.
Proof.
  intros Hx Hy Hle. apply leb_key in Hle. destruct Hle as [_ [_ Hle]].
  destruct (lex3 (key (Prim2SF x)) (key (Prim2SF y))) eqn:E.
  - rewrite (key_eq_exact _ _ qx qy Hx Hy E). apply Qle_refl.
  - apply Qlt_le_weak.
    exact (key_lt_exact _ _ qx qy (Prim2SF_valid x) (Prim2SF_valid y)
             Hx Hy E).
  - congruence.
Qed.

Lemma ltb_exact_iff (x y : float) (qx qy : Q) :
  exact x = Some qx -> exact y = Some qy ->
  (ltb x y = true <-> (qx < qy)%Q).
Proof.
  intros Hx Hy. split; [exact (ltb_exact x y qx qy Hx Hy)|].
  intros Hlt. destruct (ltb x y) eqn:E; [reflexivity|].
  assert (Hle : leb y x = true).
  { apply not_ltb_leb; [exact (exact_not_nan y qy Hy)
                       | exact (exact_not_nan x qx Hx) | exact E]. }
  pose proof (leb_exact y x qy qx Hy Hx Hle). lra.
Qed.

Lemma leb_exact_iff (x y : float) (qx qy : Q) :
  exact x = Some qx -> exact y = Some qy ->
  (leb x y = true <-> (qx <= qy)%Q).
Proof.
  intros Hx Hy. split; [exact (leb_exact x y qx qy Hx Hy)|].
  intros Hle. destruct (leb x y) eqn:E; [reflexivity|].
  assert (Hlt : ltb y x = true).
  { apply not_leb_ltb; [exact (exact_not_nan y qy Hy)
                       | exact (exact_not_nan x qx Hx) | exact E]. }
  pose proof (ltb_exact y x qy qx Hy Hx Hlt). lra.
Qed.

Lemma exact_zero : exact zero = Some 0%Q.
Proof. reflexivity. Qed.

Lemma exact_negative (v : float) (q : Q) :
  ltb v zero = true -> exact v = Some q -> (q < 0)%Q.
Proof.
  intros Hlt Hq. exact (ltb_exact v zero q 0 Hq exact_zero Hlt).
Qed.

Lemma exact_nonnegative (v : float) (q : Q) :
  leb zero v = true -> exact v = Some q -> (0 <= q)%Q.
Proof.
  intros Hle Hq. exact (leb_exact zero v 0 q exact_zero Hq Hle).
Qed.

End ExactFacts.

(** ** Zero crossing: the interpolated time and the selection *)

Module ZeroCrossRounded.
Import ZeroCross ZeroCrossFacts ZeroCrossMore Binary64 Binary64Facts.
Import ExactFacts.


(** The two samples of a detected pair. *)
Lemma detected_pair_binary64 (voltage : list float) (idx : nat) :
  In idx (sign_change_indices voltage) ->
  exists v1 v2,
    nth_error voltage idx = Some v1 /\
    nth_error voltage (idx + 1) = Some v2 /\
    ltb v1 zero = true /\ leb zero v2 = true /\
    not_nan v1 /\ not_nan v2 /\
    ltb v1 v2 = true /\ neqb v2 v1 = true.
Proof.
  intros Hin. apply In_sign_change_indices in Hin.
  destruct Hin as [v1 [v2 [Hv1 [Hv2 [Hlt Hge]]]]].
  unfold geb in Hge.
  assert (Hv : ltb v1 v2 = true) by exact (ltb_leb_trans _ _ _ Hlt Hge).
  exists v1, v2. split; [exact Hv1|]. split; [exact Hv2|].
  split; [exact Hlt|]. split; [exact Hge|].
  pose proof (proj1 (ltb_key _ _) Hv) as [Hn1 [Hn2 _]].
  split; [exact Hn1|]. split; [exact Hn2|]. split; [exact Hv|].
  unfold neqb. destruct (eqb v2 v1) eqn:E; [|reflexivity].
  apply eqb_leb in E. destruct E as [Hle _].
  apply ltb_not_leb in Hv. congruence.
Qed.

(** The two sample times of a detected pair, when [t] is long enough. *)
Lemma detected_times (t voltage : list float) (idx : nat) :
  List.length t = List.length voltage ->
  In idx (sign_change_indices voltage) ->
  exists t1 t2,
    nth_error t idx = Some t1 /\ nth_error t (idx + 1) = Some t2.
Proof.
  intros Hlen Hin. apply In_sign_change_indices in Hin.
  destruct Hin as [v1 [v2 [_ [Hv2 _]]]].
  assert (Hb : idx + 1 < List.length t).
  { rewrite Hlen. apply nth_error_Some. rewrite Hv2. discriminate. }
  destruct (nth_error t idx) as [t1|] eqn:E1.
  2:{ apply nth_error_None in E1. lia. }
  destruct (nth_error t (idx + 1)) as [t2|] eqn:E2.
  2:{ apply nth_error_None in E2. lia. }
  eauto.
Qed.

(** What the loop body appends for a detected pair. *)
Lemma t_zero_detected (t voltage : list float) (idx : nat)
    (v1 v2 t1 t2 : float) :
  In idx (sign_change_indices voltage) ->
  nth_error voltage idx = Some v1 ->
  nth_error voltage (idx + 1) = Some v2 ->
  nth_error t idx = Some t1 ->
  nth_error t (idx + 1) = Some t2 ->
  t_zero t voltage idx = Some (t1 - v1 * (t2 - t1) / (v2 - v1))%float.
Proof.
  intros Hin Hv1 Hv2 Ht1 Ht2.
  destruct (detected_pair_binary64 voltage idx Hin)
    as [w1 [w2 [Hw1 [Hw2 [_ [_ [_ [_ [_ Hne]]]]]]]]].
  rewrite Hv1 in Hw1. rewrite Hv2 in Hw2.
  injection Hw1 as Hw1. injection Hw2 as Hw2. subst w1 w2.
  unfold t_zero. rewrite Hv1, Hv2, Ht1, Ht2. simpl bind.
  rewrite Hne. reflexivity.
Qed.


(** The exact values of a detected pair. *)
Lemma detected_pair_exact (voltage : list float) (idx : nat)
    (v1 v2 : float) (q1 q2 : Q) :
  In idx (sign_change_indices voltage) ->
  nth_error voltage idx = Some v1 ->
  nth_error voltage (idx + 1) = Some v2 ->
  exact v1 = Some q1 -> exact v2 = Some q2 ->
  (q1 < 0 /\ 0 <= q2)%Q.
Proof.
  intros Hin Hv1 Hv2 Hq1 Hq2.
  destruct (detected_pair_binary64 voltage idx Hin)
    as [w1 [w2 [Hw1 [Hw2 [Hlt [Hge _]]]]]].
  rewrite Hv1 in Hw1. rewrite Hv2 in Hw2.
  injection Hw1 as Hw1. injection Hw2 as Hw2. subst w1 w2.
  split.
  - exact (exact_negative v1 q1 Hlt Hq1).
  - exact (exact_nonnegative v2 q2 Hge Hq2).
Qed.

(** *** [np.argmin] and NaN *)

Lemma argmin_from_first_nan (pre post : list float) (x mp : float)
    (min_ind i : nat) :
  not_nan mp -> Forall not_nan pre -> isnan x = true ->
  argmin_from mp min_ind i (pre ++ x :: post) = i + List.length pre.
Proof.
  revert mp min_ind i.
  induction pre as [|y pre IH]; intros mp min_ind i Hmp Hpre Hx.
  - simpl app. simpl argmin_from.
    pose proof (leb_nan_r mp x Hx) as Hle.
    change (PrimFloat.leb mp x = false) in Hle. rewrite Hle.
    simpl negb. cbv iota. rewrite Hx. simpl. lia.
  - inversion Hpre as [|y' pre' Hy Hrest]. subst y' pre'.
    simpl app. simpl argmin_from. unfold not_nan in Hy. rewrite Hy.
    destruct (PrimFloat.leb mp y); simpl negb; cbv iota.
    + rewrite (IH mp min_ind (S i) Hmp Hrest Hx). simpl. lia.
    + rewrite (IH y i (S i) Hy Hrest Hx). simpl. lia.
Qed.

(** The first NaN of an array is where [np.argmin] stops. *)
Lemma argmin_first_nan (pre post : list float) (x : float) :
  Forall not_nan pre -> isnan x = true ->
  argmin (pre ++ x :: post) = Some (List.length pre).
Proof.
  intros Hpre Hx. destruct pre as [|y pre]; simpl app; simpl argmin.
  - rewrite Hx. reflexivity.
  - inversion Hpre as [|y' pre' Hy Hrest]. subst y' pre'.
    unfold not_nan in Hy. rewrite Hy.
    rewrite (argmin_from_first_nan pre post x y 0 1 Hy Hrest Hx).
    reflexivity.
Qed.

Lemma first_nan_split (l : list float) :
  Forall not_nan l \/
  exists pre x post,
    l = pre ++ x :: post /\ Forall not_nan pre /\ isnan x = true.
Proof.
  induction l as [|y l IH].
  - left. constructor.
  - destruct (isnan y) eqn:Ey.
    + right. exists [], y, l. split; [reflexivity|].
      split; [constructor | exact Ey].
    + destruct IH as [Hall | [pre [x [post [Hl [Hpre Hx]]]]]].
      * left. constructor; assumption.
      * right. exists (y :: pre), x, post. subst l.
        split; [reflexivity|]. split; [|exact Hx].
        constructor; assumption.
Qed.

(** *** The claims *)

(** C1, as binary64 computes.  For a detected pair, with [t] as long as
    [voltage], the two sample values differ and the value the loop
    appends, which is the entry of [candidates] at the position of the
    pair, is the binary64 result of [t1 - v1 * (t2 - t1) / (v2 - v1)],
    every operation rounded.  When the four samples are finite and the
    two times differ, the same expression evaluated in exact arithmetic
    on the exact values of the samples is the root of the linear
    interpolant. *)
Theorem t_zero_rounded_interpolation (t voltage : list float) (idx : nat) :
  List.length t = List.length voltage ->
  In idx (sign_change_indices voltage) ->
  exists v1 v2 t1 t2,
    nth_error voltage idx = Some v1 /\
    nth_error voltage (idx + 1) = Some v2 /\
    nth_error t idx = Some t1 /\
    nth_error t (idx + 1) = Some t2 /\
    neqb v2 v1 = true /\
    t_zero t voltage idx = Some (t1 - v1 * (t2 - t1) / (v2 - v1))%float /\
    (exists cands k,
        candidates t voltage = Some cands /\
        nth_error (sign_change_indices voltage) k = Some idx /\
        nth_error cands k = Some (t1 - v1 * (t2 - t1) / (v2 - v1))%float) /\
    (forall qv1 qv2 qt1 qt2,
        exact v1 = Some qv1 -> exact v2 = Some qv2 ->
        exact t1 = Some qt1 -> exact t2 = Some qt2 ->
        ~ (qt2 == qt1)%Q ->
        (interpolant qt1 qv1 qt2 qv2
           (qt1 - qv1 * (qt2 - qt1) / (qv2 - qv1)) == 0)%Q).
Proof.
  intros Hlen Hin.
  destruct (detected_pair_binary64 voltage idx Hin)
    as [v1 [v2 [Hv1 [Hv2 [_ [_ [_ [_ [_ Hne]]]]]]]]].
  destruct (detected_times t voltage idx Hlen Hin) as [t1 [t2 [Ht1 Ht2]]].
  pose proof (t_zero_detected t voltage idx v1 v2 t1 t2 Hin Hv1 Hv2 Ht1 Ht2)
    as Hz.
  exists v1, v2, t1, t2.
  split; [exact Hv1|]. split; [exact Hv2|]. split; [exact Ht1|].
  split; [exact Ht2|]. split; [exact Hne|]. split; [exact Hz|]. split.
  - destruct (candidates_total t voltage Hlen) as [cands [Hc HF]].
    destruct (In_nth_error _ _ Hin) as [k Hk].
    destruct (Forall2_nth_error_l _ _ _ _ _ HF Hk) as [c [Hck Hcz]].
    exists cands, k. split; [exact Hc|]. split; [exact Hk|].
    rewrite Hck. congruence.
  - intros qv1 qv2 qt1 qt2 Hq1 Hq2 Hqt1 Hqt2 Htne.
    destruct (detected_pair_exact voltage idx v1 v2 qv1 qv2 Hin Hv1 Hv2
                Hq1 Hq2) as [Hneg Hpos].
    apply interpolation_root; [|exact Htne].
    intros Heq. lra.
Qed.

Lemma t_zero_rounded_interpolation_witness :
  exists v1 v2 t1 t2,
    nth_error [-1; 2]%float 0 = Some v1 /\
    nth_error [-1; 2]%float (0 + 1) = Some v2 /\
    nth_error [0; 1]%float 0 = Some t1 /\
    nth_error [0; 1]%float (0 + 1) = Some t2 /\
    neqb v2 v1 = true /\
    t_zero [0; 1]%float [-1; 2]%float 0
    = Some (t1 - v1 * (t2 - t1) / (v2 - v1))%float /\
    (exists cands k,
        candidates [0; 1]%float [-1; 2]%float = Some cands /\
        nth_error (sign_change_indices [-1; 2]%float) k = Some 0 /\
        nth_error cands k = Some (t1 - v1 * (t2 - t1) / (v2 - v1))%float) /\
    (forall qv1 qv2 qt1 qt2,
        exact v1 = Some qv1 -> exact v2 = Some qv2 ->
        exact t1 = Some qt1 -> exact t2 = Some qt2 ->
        ~ (qt2 == qt1)%Q ->
        (interpolant qt1 qv1 qt2 qv2
           (qt1 - qv1 * (qt2 - qt1) / (qv2 - qv1)) == 0)%Q).
Proof.
  apply (t_zero_rounded_interpolation [0; 1]%float [-1; 2]%float 0).
  - reflexivity.
  - vm_compute. left. reflexivity.
Defined.

(** C1 as it was stated fails on binary64.  With [t = [0; 1]] and
    [voltage = [-1; 2]] the root of the interpolant is [1/3]; the value
    the loop appends is a binary64 number, at which the interpolant is
    not 0.  With [t = [2.5; 2.75]] and [voltage = [-2^-60; 1]] the value
    appended is [t[0]], where the interpolant is [voltage[0]].  With
    [t = [0; 2^40]] and [voltage = [-2^1023; 2^1023]], finite samples,
    the value appended is a NaN. *)
Lemma rounded_time_is_not_the_root :
  (In 0 (sign_change_indices [-1; 2]%float) /\
   exists c q qt1 qv1 qt2 qv2,
     t_zero [0; 1]%float [-1; 2]%float 0 = Some c /\
     exact c = Some q /\
     exact 0%float = Some qt1 /\ exact (-1)%float = Some qv1 /\
     exact 1%float = Some qt2 /\ exact 2%float = Some qv2 /\
     (qt1 == 0 /\ qv1 == -1 /\ qt2 == 1 /\ qv2 == 2)%Q /\
     ~ (interpolant qt1 qv1 qt2 qv2 q == 0)%Q) /\
  (In 0 (sign_change_indices [-0x1p-60; 1]%float) /\
   t_zero [2.5; 2.75]%float [-0x1p-60; 1]%float 0 = Some 2.5%float /\
   exists qt1 qv1 qt2 qv2,
     exact 2.5%float = Some qt1 /\ exact (-0x1p-60)%float = Some qv1 /\
     exact 2.75%float = Some qt2 /\ exact 1%float = Some qv2 /\
     ~ (interpolant qt1 qv1 qt2 qv2 qt1 == 0)%Q) /\
  (In 0 (sign_change_indices [-0x1p1023; 0x1p1023]%float) /\
   t_zero [0; 0x1p40]%float [-0x1p1023; 0x1p1023]%float 0 = Some nan /\
   exact nan = None).
Proof.
  split; [|split].
  - split; [vm_compute; left; reflexivity|].
    eexists. eexists. eexists. eexists. eexists. eexists.
    split; [vm_compute; reflexivity|]. split; [vm_compute; reflexivity|].
    split; [vm_compute; reflexivity|]. split; [vm_compute; reflexivity|].
    split; [vm_compute; reflexivity|]. split; [vm_compute; reflexivity|].
    split; [repeat split; vm_compute; reflexivity|].
    intros H. vm_compute in H. discriminate.
  - split; [vm_compute; left; reflexivity|].
    split; [vm_compute; reflexivity|].
    eexists. eexists. eexists. eexists.
    split; [vm_compute; reflexivity|]. split; [vm_compute; reflexivity|].
    split; [vm_compute; reflexivity|]. split; [vm_compute; reflexivity|].
    intros H. vm_compute in H. discriminate.
  - split; [vm_compute; left; reflexivity|].
    split; vm_compute; reflexivity.
Qed.






(** C2, as binary64 computes.  With [t] as long as [voltage] and a sign
    change detected, the crossing that is drawn is one of the
    interpolated candidates, and [np.argmin] picks it by the computed
    distances [|candidate - cross|]: no candidate before it has a NaN
    distance, and either its own distance is a NaN, or no distance is a
    NaN, no candidate has a smaller computed distance and every
    candidate before it has a strictly larger one. *)
Theorem actual_crossing_selection (t voltage : list float) (cross : float) :
  List.length t = List.length voltage ->
  sign_change_indices voltage <> [] ->
  exists cands k c,
    candidates t voltage = Some cands /\
    Forall2 (fun idx c' => t_zero t voltage idx = Some c')
            (sign_change_indices voltage) cands /\
    nth_error cands k = Some c /\
    actual_crossing t voltage cross = Some c /\
    (forall j c', j < k -> nth_error cands j = Some c' ->
       not_nan (abs (c' - cross))%float) /\
    (isnan (abs (c - cross))%float = true \/
     (Forall not_nan (distances cands cross) /\
      (forall j c', nth_error cands j = Some c' ->
         leb (abs (c - cross)) (abs (c' - cross)) = true) /\
      (forall j c', j < k -> nth_error cands j = Some c' ->
         ltb (abs (c - cross)) (abs (c' - cross)) = true))).
Proof.
  intros Hlen Hne.
  destruct (candidates_total t voltage Hlen) as [cands [Hc HF]].
  assert (Hpos : (0 <? List.length (sign_change_indices voltage)) = true).
  { apply Nat.ltb_lt.
    destruct (sign_change_indices voltage); [congruence | simpl; lia]. }
  assert (Hdraw : forall k c,
             argmin (distances cands cross) = Some k ->
             nth_error cands k = Some c ->
             actual_crossing t voltage cross = Some c).
  { intros k c Hk Hck. unfold actual_crossing. rewrite Hpos.
    unfold candidates in Hc. rewrite Hc. simpl bind. rewrite Hk.
    simpl bind. exact Hck. }
  assert (Hdist : forall j c', nth_error cands j = Some c' ->
             nth_error (distances cands cross) j
             = Some (abs (c' - cross))%float).
  { intros j c' Hj. unfold distances. rewrite nth_error_map, Hj.
    reflexivity. }
  exists cands.
  destruct (first_nan_split (distances cands cross))
    as [Hall | [pre [x [post [Hd [Hpre Hx]]]]]].
  - assert (Hd : distances cands cross <> []).
    { unfold distances. destruct cands as [|c0 cands]; [|discriminate].
      inversion HF as [Hnil|]. congruence. }
    destruct (ZeroCrossBinary64.argmin_least_binary64 _ Hall Hd)
      as [k [m [Hk [Hm [Hleast Hbefore]]]]].
    unfold distances in Hm. rewrite nth_error_map in Hm.
    destruct (nth_error cands k) as [c|] eqn:Ec; [|discriminate].
    simpl in Hm. injection Hm as Hm. subst m.
    exists k, c. split; [exact Hc|]. split; [exact HF|].
    split; [exact Ec|]. split; [exact (Hdraw k c Hk Ec)|]. split.
    + intros j c' _ Hj.
      exact (ZeroCrossBinary64.Forall_nth_error _ _ _ _ Hall (Hdist j c' Hj)).
    + right. split; [exact Hall|]. split.
      * intros j c' Hj. exact (Hleast j _ (Hdist j c' Hj)).
      * intros j c' Hlt Hj. exact (Hbefore j _ Hlt (Hdist j c' Hj)).
  - pose proof (argmin_first_nan pre post x Hpre Hx) as Hk.
    rewrite <- Hd in Hk.
    assert (Hxk : nth_error (distances cands cross) (List.length pre)
                  = Some x).
    { rewrite Hd, nth_error_app2 by lia. rewrite Nat.sub_diag. reflexivity. }
    destruct (nth_error cands (List.length pre)) as [c|] eqn:Ec.
    2:{ unfold distances in Hxk. rewrite nth_error_map, Ec in Hxk.
        discriminate. }
    rewrite (Hdist _ c Ec) in Hxk. injection Hxk as Hxk.
    exists (List.length pre), c. split; [exact Hc|]. split; [exact HF|].
    split; [exact Ec|]. split; [exact (Hdraw _ c Hk Ec)|]. split.
    + intros j c' Hlt Hj. pose proof (Hdist j c' Hj) as Hdj.
      rewrite Hd, nth_error_app1 in Hdj by exact Hlt.
      exact (ZeroCrossBinary64.Forall_nth_error _ _ _ _ Hpre Hdj).
    + left. rewrite Hxk. exact Hx.
Qed.

Lemma actual_crossing_selection_witness :
  exists cands k c,
    candidates [0; 1; 2; 3; 4]%float [-1; 1; -1; -1; 3]%float = Some cands /\
    Forall2 (fun idx c' =>
               t_zero [0; 1; 2; 3; 4]%float [-1; 1; -1; -1; 3]%float idx
               = Some c')
            (sign_change_indices [-1; 1; -1; -1; 3]%float) cands /\
    nth_error cands k = Some c /\
    actual_crossing [0; 1; 2; 3; 4]%float [-1; 1; -1; -1; 3]%float 3%float
    = Some c /\
    (forall j c', j < k -> nth_error cands j = Some c' ->
       not_nan (abs (c' - 3))%float) /\
    (isnan (abs (c - 3))%float = true \/
     (Forall not_nan (distances cands 3%float) /\
      (forall j c', nth_error cands j = Some c' ->
         leb (abs (c - 3)) (abs (c' - 3)) = true) /\
      (forall j c', j < k -> nth_error cands j = Some c' ->
         ltb (abs (c - 3)) (abs (c' - 3)) = true))).
Proof.
  apply (actual_crossing_selection
           [0; 1; 2; 3; 4]%float [-1; 1; -1; -1; 3]%float 3%float).
  - reflexivity.
  - vm_compute. discriminate.
Defined.

(** C2 as it was stated fails on binary64.  With
    [t = [0; 2^40; 2^41; 3 * 2^40]], [voltage = [-2^1023; 2^1023; -1; 1]]
    and [cross = 5 * 2^39] the candidates are a NaN and [cross] itself,
    and the NaN is drawn although the other candidate is at distance 0.
    With [t = [0; 1; 2; 3; 4]], [voltage = [-1; 1; -1; -1; 1]] and
    [cross = 2^60] the candidates are 0.5 and 3.5; both computed
    distances round to [2^60], and 0.5 is drawn although 3.5 is
    nearer. *)
Lemma nearest_candidate_is_missed :
  (candidates [0; 0x1p40; 0x1p41; 0x1.8p41]%float
              [-0x1p1023; 0x1p1023; -1; 1]%float
   = Some [nan; 0x1.4p41]%float /\
   distances [nan; 0x1.4p41]%float 0x1.4p41%float = [nan; 0]%float /\
   actual_crossing [0; 0x1p40; 0x1p41; 0x1.8p41]%float
                   [-0x1p1023; 0x1p1023; -1; 1]%float 0x1.4p41%float
   = Some nan) /\
  (candidates [0; 1; 2; 3; 4]%float [-1; 1; -1; -1; 1]%float
   = Some [0.5; 3.5]%float /\
   distances [0.5; 3.5]%float 0x1p60%float = [0x1p60; 0x1p60]%float /\
   actual_crossing [0; 1; 2; 3; 4]%float [-1; 1; -1; -1; 1]%float
                   0x1p60%float
   = Some 0.5%float /\
   exists q1 q2 qc,
     exact 0.5%float = Some q1 /\ exact 3.5%float = Some q2 /\
     exact 0x1p60%float = Some qc /\
     (Qabs (q2 - qc) < Qabs (q1 - qc))%Q).
Proof.
  split.
  - repeat split; vm_compute; reflexivity.
  - split; [vm_compute; reflexivity|]. split; [vm_compute; reflexivity|].
    split; [vm_compute; reflexivity|].
    eexists. eexists. eexists.
    split; [vm_compute; reflexivity|]. split; [vm_compute; reflexivity|].
    split; [vm_compute; reflexivity|].
    vm_compute. reflexivity.
Qed.

End ZeroCrossRounded.

(** ** Peak detector: every voltage sequence *)

Module PeakDetectBinary64.
Import PeakDetect PeakDetectMore Binary64 Binary64Facts.

Lemma firstn_accumulate_from (f : float -> float -> float) (n : nat)
    (l : list float) (acc : float) :
  firstn n (accumulate_from f acc l) = accumulate_from f acc (firstn n l).
Proof.
  revert n acc. induction l as [|x rest IH]; intros n acc.
  - destruct n; reflexivity.
  - destruct n as [|n]; simpl; [reflexivity|]. rewrite IH. reflexivity.
Qed.

(** The peak detector does not look ahead. *)
Lemma firstn_peak_detector (n : nat) (voltage : list float) :
  firstn n (peak_detector voltage) = peak_detector (firstn n voltage).
Proof.
  unfold peak_detector, accumulate.
  destruct voltage as [|x rest]; [destruct n; reflexivity|].
  destruct n as [|n]; simpl; [reflexivity|].
  rewrite firstn_accumulate_from. reflexivity.
Qed.

Lemma nth_error_firstn_lt {X} (n i : nat) (l : list X) :
  i < n -> nth_error (firstn n l) i = nth_error l i.
Proof.
  intros Hlt. rewrite nth_error_firstn.
  apply Nat.ltb_lt in Hlt. rewrite Hlt. reflexivity.
Qed.

(** C4, as binary64 computes.  The output is as long as the input.  As
    long as no NaN sample has been met, that is below any [n] such that
    the first [n] samples hold no NaN, the output at index [i] is one of
    the samples of index [0..i], no sample of index [0..i] exceeds it,
    and the output does not decrease.  From the index of a NaN sample
    on, every output is a NaN. *)
Theorem peak_detector_running_maximum (voltage : list float) (n : nat) :
  Forall not_nan (firstn n voltage) ->
  List.length (peak_detector voltage) = List.length voltage /\
  (forall i, i < n -> i < List.length voltage ->
     exists p,
       nth_error (peak_detector voltage) i = Some p /\
       (exists j, j <= i /\ nth_error voltage j = Some p) /\
       (forall j x, j <= i -> nth_error voltage j = Some x ->
                    leb x p = true)) /\
  (forall i j p q, i <= j -> j < n ->
     nth_error (peak_detector voltage) i = Some p ->
     nth_error (peak_detector voltage) j = Some q ->
     leb p q = true) /\
  (forall k x i p,
     nth_error voltage k = Some x -> isnan x = true -> k <= i ->
     nth_error (peak_detector voltage) i = Some p ->
     isnan p = true).
Proof.
  intros Hall.
  assert (Hcut : forall i p, i < n ->
             nth_error (peak_detector voltage) i = Some p ->
             nth_error (peak_detector (firstn n voltage)) i = Some p).
  { intros i p Hin Hp.
    rewrite <- firstn_peak_detector, nth_error_firstn_lt by exact Hin.
    exact Hp. }
  split.
  { unfold peak_detector, accumulate. destruct voltage as [|x rest];
      [reflexivity|]. simpl. rewrite length_accumulate_from_any.
    reflexivity. }
  split.
  { intros i Hin Hil.
    destruct (peak_detector_defined voltage i Hil) as [p Hp].
    destruct (peak_detector_nth_binary64 _ i p Hall (Hcut i p Hin Hp))
      as [[j [Hj Hjp]] Hle].
    exists p. split; [exact Hp|]. split.
    - exists j. split; [exact Hj|].
      rewrite nth_error_firstn_lt in Hjp by lia. exact Hjp.
    - intros j' x Hj' Hx. apply (Hle j'); [exact Hj'|].
      rewrite nth_error_firstn_lt by lia. exact Hx. }
  split.
  { intros i j p q Hij Hjn Hp Hq.
    apply (peak_detector_mono_binary64 (firstn n voltage) i j p q Hall Hij).
    - apply Hcut; [lia | exact Hp].
    - apply Hcut; [lia | exact Hq]. }
  intros k x i p Hk Hx Hki Hp. unfold peak_detector in Hp.
  destruct voltage as [|y rest]; [destruct k; discriminate|].
  simpl in Hp. destruct k as [|k]; simpl in Hk.
  - injection Hk as Hk. subst y. destruct i as [|i]; simpl in Hp.
    + injection Hp as Hp. subst p. exact Hx.
    + exact (accumulate_from_nan _ _ _ _ Hx Hp).
  - destruct i as [|i]; [lia|]. simpl in Hp.
    apply (accumulate_from_nan_later rest y k i x p); try assumption. lia.
Qed.

Lemma peak_detector_running_maximum_witness :
  List.length (peak_detector [1; 3; 2; nan; 4]%float)
  = List.length [1; 3; 2; nan; 4]%float /\
  (forall i, i < 3 -> i < List.length [1; 3; 2; nan; 4]%float ->
     exists p,
       nth_error (peak_detector [1; 3; 2; nan; 4]%float) i = Some p /\
       (exists j, j <= i /\ nth_error [1; 3; 2; nan; 4]%float j = Some p) /\
       (forall j x, j <= i -> nth_error [1; 3; 2; nan; 4]%float j = Some x ->
                    leb x p = true)) /\
  (forall i j p q, i <= j -> j < 3 ->
     nth_error (peak_detector [1; 3; 2; nan; 4]%float) i = Some p ->
     nth_error (peak_detector [1; 3; 2; nan; 4]%float) j = Some q ->
     leb p q = true) /\
  (forall k x i p,
     nth_error [1; 3; 2; nan; 4]%float k = Some x -> isnan x = true ->
     k <= i ->
     nth_error (peak_detector [1; 3; 2; nan; 4]%float) i = Some p ->
     isnan p = true).
Proof.
  apply (peak_detector_running_maximum [1; 3; 2; nan; 4]%float 3).
  repeat (apply Forall_cons; [reflexivity|]). apply Forall_nil.
Defined.

(** C4 as it was stated fails on a sequence that holds a NaN.  For
    [voltage = [1; nan; 5]] the output is [[1; nan; nan]]: its last
    entry is not the sample 5, the largest of the three, nor any number
    that 5 does not exceed, and the output is not non-decreasing. *)
Lemma nan_sample_hides_later_peaks :
  peak_detector [1; nan; 5]%float = [1; nan; nan]%float /\
  eqb nan 5%float = false /\
  leb 5%float nan = false /\
  leb 1%float nan = false.
Proof. repeat split; vm_compute; reflexivity. Qed.

End PeakDetectBinary64.

(** ** Zero crossing: the detector on finite samples *)

Module ZeroCrossExact.
Import ZeroCross ZeroCrossFacts Binary64 Binary64Facts ExactFacts.

(** X24: the detector makes no rounding error.  For two neighbouring
    samples that are finite, the index is detected exactly when the
    exact value of the first is negative and that of the second is not. *)
Theorem detection_is_exact (voltage : list float) (i : nat)
    (v1 v2 : float) (q1 q2 : Q) :
  nth_error voltage i = Some v1 ->
  nth_error voltage (i + 1) = Some v2 ->
  exact v1 = Some q1 -> exact v2 = Some q2 ->
  (In i (sign_change_indices voltage) <-> (q1 < 0 /\ 0 <= q2)%Q).
Proof.
  intros Hv1 Hv2 Hq1 Hq2. rewrite In_sign_change_indices. split.
  - intros [w1 [w2 [Hw1 [Hw2 [Hlt Hge]]]]].
    rewrite Hv1 in Hw1. rewrite Hv2 in Hw2.
    injection Hw1 as Hw1. injection Hw2 as Hw2. subst w1 w2.
    split.
    + exact (exact_negative v1 q1 Hlt Hq1).
    + exact (exact_nonnegative v2 q2 Hge Hq2).
  - intros [Hneg Hpos]. exists v1, v2.
    split; [exact Hv1|]. split; [exact Hv2|]. split.
    + apply (ltb_exact_iff v1 zero q1 0 Hq1 exact_zero). exact Hneg.
    + unfold geb.
      apply (leb_exact_iff zero v2 0 q2 exact_zero Hq2). exact Hpos.
Qed.

Lemma detection_is_exact_witness :
  exists q1 q2,
    exact (-0x1p-1074)%float = Some q1 /\ exact 0%float = Some q2 /\
    (In 1 (sign_change_indices [1; -0x1p-1074; 0; 2]%float)
     <-> (q1 < 0 /\ 0 <= q2)%Q).
Proof.
  eexists. eexists. split; [reflexivity|]. split; [reflexivity|].
  apply (detection_is_exact [1; -0x1p-1074; 0; 2]%float 1
           (-0x1p-1074)%float 0%float).
  - reflexivity.
  - reflexivity.
  - reflexivity.
  - reflexivity.
Defined.

End ZeroCrossExact.
